(** * Shallow embedding of the headless server of _headlessEx

    Files embedded:
    - src/server/server.ts              ([updateEntities], [MainScene.onPreUpdate],
                                          [unsubscribeUser])
    - src/server/Actor/ClientActor.ts   ([ClientActor.onCollisionStart])
    - src/server/HeadlessEx/Scene.ts    ([Scene._initialize], [Scene.update])
    - src/server/HeadlessEx/Engine.ts   ([Engine._mainloop])
    - src/server/HeadlessEx/Director/Director.ts

    Coordinates and speeds are JS numbers that only ever hold small integers in
    these code paths ([rng.integer], [playerSpeed = 4], box sizes 24), so they
    are modelled as [Z]; the clock's lag accounting works on arbitrary
    millisecond values and is modelled with the kernel's IEEE-754 binary64
    floats ([PrimFloat]), which is what a JS number is. *)

From Stdlib Require Import String List ZArith Bool Lia.
From Stdlib Require PrimFloat Uint63 SpecFloat FloatOps FloatAxioms.
Import ListNotations.
Open Scope Z_scope.

(* ------------------------------------------------------------------ *)
(** ** Collision vocabulary (HeadlessEx/Collision/Side, CollisionType) *)

Module Side.
Inductive Side : Type := None | Top | Bottom | Left | Right.

Definition eqb (a b : Side) : bool :=
  match a, b with
  | None, None | Top, Top | Bottom, Bottom | Left, Left | Right, Right => true
  | _, _ => false
  end.
End Side.

Inductive CollisionType : Type := PreventCollision | Passive | Active | Fixed.

(* ------------------------------------------------------------------ *)
(** ** Actors (src/server/Actor/ClientActor.ts) *)

(** [collisionData] of a [ClientActor]; [other] holds the uuid of the other
    participant ([other.owner]). *)
Record CollisionData : Type := mkCollisionData {
  isColliding : bool;
  collisionDirection : Side.Side;
  other : option string
}.

Definition initialCollisionData : CollisionData :=
  mkCollisionData false Side.None None.

(** One scene entity.  [pos] is the engine transform ([Actor.pos]); [position]
    is the [Types.Quat] the game code keeps next to it (only x and y are ever
    non-zero).  [NPCActor]s are the same shape with [Fixed] collision type and
    no held directions. *)
Record Actor : Type := mkActor {
  name : string;
  uuid : string;
  pos : Z * Z;
  position : Z * Z;
  width : Z;
  height : Z;
  collisionType : CollisionType;
  directions : list string;
  collisionData : CollisionData
}.

(** [new ClientActor(name, rng)] once [rng] has produced [(x, y)]. *)
Definition newClientActor (nm id : string) (x y : Z) : Actor :=
  mkActor nm id (x, y) (x, y) 24 24 Passive [] initialCollisionData.

(** [new NPCActor(rng)] once [rng] has produced [(x, y)]. *)
Definition newNPCActor (id : string) (x y : Z) : Actor :=
  mkActor "NPC" id (x, y) (x, y) 24 24 Fixed [] initialCollisionData.

Definition set_position (a : Actor) (p : Z * Z) : Actor :=
  mkActor (name a) (uuid a) (pos a) p (width a) (height a)
          (collisionType a) (directions a) (collisionData a).

Definition set_pos (a : Actor) (p : Z * Z) : Actor :=
  mkActor (name a) (uuid a) p (position a) (width a) (height a)
          (collisionType a) (directions a) (collisionData a).

Definition set_collisionData (a : Actor) (c : CollisionData) : Actor :=
  mkActor (name a) (uuid a) (pos a) (position a) (width a) (height a)
          (collisionType a) (directions a) c.

Definition set_directions (a : Actor) (ds : list string) : Actor :=
  mkActor (name a) (uuid a) (pos a) (position a) (width a) (height a)
          (collisionType a) ds (collisionData a).

(** [ClientActor.onCollisionStart(self, other, side, contact)]; [o] is
    [other.owner].  The [Vector] assigned to [this.pos] is built from
    [this.position], the overlap from [this.pos]. *)
Definition onCollisionStart (self o : Actor) (side : Side.Side) : Actor :=
  let self := set_collisionData self (mkCollisionData true side (Some (uuid o))) in
  let '(px, py) := position self in
  match side with
  | Side.None => self
  | Side.Top =>
      let overlap := snd (pos o) + height o - snd (pos self) in
      set_position (set_pos self (px, py + overlap)) (px, py + overlap)
  | Side.Bottom =>
      let overlap := snd (pos o) - (snd (pos self) + height self) in
      set_position (set_pos self (px, py + overlap)) (px, py + overlap)
  | Side.Left =>
      let overlap := fst (pos o) + width o - fst (pos self) in
      set_position (set_pos self (px + overlap, py)) (px + overlap, py)
  | Side.Right =>
      let overlap := fst (pos o) - (fst (pos self) + width self) in
      set_position (set_pos self (px + overlap, py)) (px + overlap, py)
  end.

(** [ClientActor.onPreUpdate]: [this.pos = new Vector(position.x, position.y)]. *)
Definition actor_onPreUpdate (a : Actor) : Actor := set_pos a (position a).

(** [entity.onPreUpdate] for the room's entities: only [ClientActor]s (the
    [Passive] ones) override it; [NPCActor] keeps the empty base hook. *)
Definition entity_onPreUpdate (a : Actor) : Actor :=
  match collisionType a with
  | Passive => actor_onPreUpdate a
  | _ => a
  end.

(* ------------------------------------------------------------------ *)
(** ** Room state and the movement pass (src/server/server.ts) *)

Definition playerSpeed : Z := 4.

(** [ServerTransmitEntities]: only [id] and [networkId] are read by the
    functions embedded here. *)
Record ServerTransmitEntity : Type := mkSTE {
  ste_id : string;
  networkId : string;
  ste_position : Z * Z
}.

(** [rooms[roomId]]: [players], and the entities of
    [gameEngine.currentScene]. *)
Record WorldState : Type := mkWorldState {
  players : list ServerTransmitEntity;
  entities : list Actor;
  killed : list string
}.

(** [entities.find(entity => entity.uuid == id)] *)
Fixpoint find_entity (id : string) (es : list Actor) : option Actor :=
  match es with
  | [] => None
  | e :: es' => if String.eqb (uuid e) id then Some e else find_entity id es'
  end.

(** In-place mutation of the object that [find_entity] returned: the first
    entity with that uuid is replaced. *)
Fixpoint replace_entity (a : Actor) (es : list Actor) : list Actor :=
  match es with
  | [] => []
  | e :: es' => if String.eqb (uuid e) (uuid a) then a :: es'
                else e :: replace_entity a es'
  end.

(** [array.includes(d)] on strings. *)
Definition includes (d : string) (l : list string) : bool :=
  existsb (String.eqb d) l.

(** Control flow inside the loop body: fall through, or [return] out of
    [updateEntities] altogether. *)
Inductive Flow : Type :=
  | Next (a : Actor)
  | Return (a : Actor).

(** [pEnt.getIsColliding().isColliding &&
     pEnt.getIsColliding().collisionDirection == side] *)
Definition blocked (a : Actor) (s : Side.Side) : bool :=
  isColliding (collisionData a) && Side.eqb (collisionDirection (collisionData a)) s.

(** One [if (pEnt.directions.includes(d)) { if (blocked) return; move }]. *)
Definition direction_step (d : string) (s : Side.Side) (dx dy : Z) (f : Flow) : Flow :=
  match f with
  | Return a => Return a
  | Next a =>
      if includes d (directions a) then
        if blocked a s then Return a
        else let '(x, y) := position a in Next (set_position a (x + dx, y + dy))
      else Next a
  end.

(** The body of the [for (const player of players)] loop, for the entity found. *)
Definition move_player (a : Actor) : Flow :=
  if (0 <? Z.of_nat (length (directions a)))%Z then
    direction_step "right" Side.Right playerSpeed 0
      (direction_step "left" Side.Left (- playerSpeed) 0
        (direction_step "down" Side.Bottom 0 playerSpeed
          (direction_step "up" Side.Top 0 (- playerSpeed) (Next a))))
  else Next a.

(** [updateEntities(room)]: [None] is the [TypeError] raised when no entity
    carries the player's id ([pEnt.directions] on [undefined]). *)
Fixpoint update_players (ps : list ServerTransmitEntity) (es : list Actor)
  : option (list Actor) :=
  match ps with
  | [] => Some es
  | p :: ps' =>
      match find_entity (ste_id p) es with
      | None => None
      | Some a =>
          match move_player a with
          | Return a' => Some (replace_entity a' es)
          | Next a' => update_players ps' (replace_entity a' es)
          end
      end
  end.

Definition updateEntities (w : WorldState) : option WorldState :=
  match update_players (players w) (entities w) with
  | Some es => Some (mkWorldState (players w) es (killed w))
  | None => None
  end.

(* ------------------------------------------------------------------ *)
(** ** Leaving a room: [unsubscribeUser] (src/server/server.ts) *)

(** [Array.prototype.findIndex]: the first index satisfying [f], or -1. *)
Fixpoint findIndex {A : Type} (f : A -> bool) (l : list A) : Z :=
  match l with
  | [] => -1
  | x :: l' => if f x then 0 else
                 let i := findIndex f l' in if i <? 0 then -1 else i + 1
  end.

(** [Array.prototype.splice(start, 1)] on the remaining list: a negative
    [start] counts from the end (clamped at 0), a [start] past the end
    removes nothing. *)
Definition splice1 {A : Type} (start : Z) (l : list A) : list A :=
  let len := Z.of_nat (length l) in
  let s := if start <? 0 then Z.max (len + start) 0 else Z.min start len in
  firstn (Z.to_nat s) l ++ skipn (Z.to_nat s + 1) l.

(** [entities.find(entity => entity.name == userId)] *)
Fixpoint find_by_name (n : string) (es : list Actor) : option Actor :=
  match es with
  | [] => None
  | e :: es' => if String.eqb (name e) n then Some e else find_by_name n es'
  end.

(** The [rooms] record: an association list keyed by room id. *)
Definition Rooms := list (string * WorldState).

Fixpoint room_lookup (rs : Rooms) (k : string) : option WorldState :=
  match rs with
  | [] => None
  | (k', w) :: rs' => if String.eqb k k' then Some w else room_lookup rs' k
  end.

Fixpoint room_update (rs : Rooms) (k : string) (w : WorldState) : Rooms :=
  match rs with
  | [] => []
  | (k', w') :: rs' => if String.eqb k k' then (k', w) :: rs'
                       else (k', w') :: room_update rs' k w
  end.

(** The body of [unsubscribeUser] on the room object; [kill()] is recorded in
    [killed]. *)
Definition unsubscribe_room (w : WorldState) (userId : string) : WorldState :=
  let indexPlayertoDelete :=
    findIndex (fun p => String.eqb (networkId p) userId) (players w) in
  let killed' :=
    match find_by_name userId (entities w) with
    | Some e => uuid e :: killed w
    | None => killed w
    end in
  mkWorldState (splice1 indexPlayertoDelete (players w)) (entities w) killed'.

(** [unsubscribeUser(roomId, userId)] for a room that is an own property of
    [rooms] or absent; for a key inherited from [Object.prototype] the JS
    code throws at [room.players.findIndex], a case not covered here. *)
Definition unsubscribeUser (rs : Rooms) (roomId userId : string) : Rooms :=
  match room_lookup rs roomId with
  | Some w => room_update rs roomId (unsubscribe_room w userId)
  | None => rs
  end.

(** The list without its first element satisfying [f] (reference
    description of a removal by match). *)
Fixpoint remove_first {A : Type} (f : A -> bool) (l : list A) : list A :=
  match l with
  | [] => []
  | x :: l' => if f x then l' else x :: remove_first f l'
  end.

(* ------------------------------------------------------------------ *)
(** ** One scene tick: [Scene.update] with [MainScene.onPreUpdate] *)

(** The [players] of [snapshotInterpolation.snapshot.create]: id and
    [pos.x], [pos.y] of every entity of the current scene. *)
Definition Snapshot := list (string * Z * Z).

Definition snapshot_of (es : list Actor) : Snapshot :=
  map (fun e => (uuid e, fst (pos e), snd (pos e))) es.

(** [MainScene.onPreUpdate]: move the players, then snapshot the entities and
    broadcast; [None] is an exception escaping [updateEntities]. *)
Definition mainScene_onPreUpdate (w : WorldState) : option (WorldState * Snapshot) :=
  match updateEntities w with
  | Some w' => Some (w', snapshot_of (entities w'))
  | None => None
  end.

Record Timer : Type := mkTimer { timer_id : nat; timer_state : Z }.

(** Scene state read and written by [Scene.update]; [broadcasts] is the
    sequence of snapshots handed to [server.broadcastMessage]. *)
Record SceneState : Type := mkSceneState {
  sc_isInitialized : bool;
  sc_world : WorldState;
  sc_timers : list Timer;
  sc_cancelQueue : list Timer;
  sc_broadcasts : list Snapshot
}.

(** [Scene.removeTimer]: [indexOf], then [splice(i, 1)] when found. *)
Fixpoint removeTimer (t : Timer) (ts : list Timer) : list Timer :=
  match ts with
  | [] => []
  | t' :: ts' => if Nat.eqb (timer_id t') (timer_id t) then ts' else t' :: removeTimer t ts'
  end.

Section SceneUpdate.
(** [timer.update(elapsed)] (Timer.ts) and
    [world.update(SystemType.Update, elapsed)], the ECS systems
    (Actions, Motion, Collision), are taken as parameters. *)
Variable timer_update : Z -> Timer -> Timer.
Variable systems_update : Z -> list Actor -> list Actor.

(** [Scene.update(engine, elapsed)] for a [MainScene]; [None] is an exception
    thrown out of [onPreUpdate].  [onPostUpdate] is not overridden. *)
Definition scene_update (st : SceneState) (elapsed : Z) : option SceneState :=
  if negb (sc_isInitialized st) then Some st
  else
    match mainScene_onPreUpdate (sc_world st) with
    | None => None
    | Some (w1, snap) =>
        let timers1 := fold_left (fun ts t => removeTimer t ts) (sc_cancelQueue st) (sc_timers st) in
        let timers2 := map (timer_update elapsed) timers1 in
        let es := systems_update elapsed (entities w1) in
        Some (mkSceneState true (mkWorldState (players w1) es (killed w1))
                timers2 [] (sc_broadcasts st ++ [snap]))
    end.
End SceneUpdate.

(** Modelled from the spec: the contact side computed by the collision
    system (HeadlessEx/Collision is not part of src).  The axis with the
    smaller penetration wins, vertical on a tie; the side is the face of [a]
    that touches [b].  Boxes are placed at [pos] with the extents the game
    code uses ([pos.y + height] is the bottom edge). *)
Definition contact_side (a b : Actor) : Side.Side :=
  let '(ax, ay) := pos a in
  let '(bx, by_) := pos b in
  let '(peny, sidey) :=
    if ay <? by_ then (ay + height a - by_, Side.Bottom) else (by_ + height b - ay, Side.Top) in
  let '(penx, sidex) :=
    if ax <? bx then (ax + width a - bx, Side.Right) else (bx + width b - ax, Side.Left) in
  if peny <=? penx then sidey else sidex.

Definition boxes_overlap (a b : Actor) : bool :=
  let '(ax, ay) := pos a in
  let '(bx, by_) := pos b in
  (ax <? bx + width b) && (bx <? ax + width a) && (ay <? by_ + height b) && (by_ <? ay + height a).

Fixpoint first_contact (a : Actor) (es : list Actor) : option Actor :=
  match es with
  | [] => None
  | b :: es' =>
      match collisionType b with
      | Fixed => if boxes_overlap a b then Some b else first_contact a es'
      | _ => first_contact a es'
      end
  end.

(** Modelled from the spec: the collision pass of [CollisionSystem] for the
    room's collision groups (players collide with NPCs only, and NPCs are
    [Fixed]): a [Passive] actor that is not yet colliding and overlaps an NPC
    receives [onCollisionStart] with the contact side. *)
Definition collision_pass (es : list Actor) : list Actor :=
  map (fun a =>
         match collisionType a, isColliding (collisionData a) with
         | Passive, false =>
             match first_contact a es with
             | Some b => onCollisionStart a b (contact_side a b)
             | None => a
             end
         | _, _ => a
         end) es.

(* ------------------------------------------------------------------ *)
(** ** The clock-driven main loop: [Engine._mainloop] (Engine.ts) *)

Module Clock.
Import PrimFloat.
Local Open Scope float_scope.

(** The fields of [Engine] that [_mainloop] reads and writes; [updates] is
    the sequence of arguments passed to [_update]. *)
Record EngineClock : Type := mkEngineClock {
  fixedUpdateTimestep : PrimFloat.float;
  timescale : PrimFloat.float;
  lagMs : PrimFloat.float;
  currentFrameElapsedMs : PrimFloat.float;
  currentFrameLagMs : PrimFloat.float;
  updates : list PrimFloat.float
}.

(** JS truthiness of a number: neither [0], [-0] nor [NaN]. *)
Definition truthy (x : PrimFloat.float) : bool :=
  negb (PrimFloat.is_nan x) && negb (x =? 0).

(** [while (this._lagMs >= fixedTimestepMs) { this._update(fixedTimestepMs);
    this._lagMs -= fixedTimestepMs; }] — with [fuel] bounding the
    iterations: [None] when the loop is still running after [fuel] rounds
    (the JS loop does not terminate when [lag - ts] rounds back to [lag]). *)
Fixpoint catch_up (fuel : nat) (ts lag : PrimFloat.float) (ups : list PrimFloat.float)
  : option (PrimFloat.float * list PrimFloat.float) :=
  match fuel with
  | O => None
  | S fuel' =>
      if ts <=? lag then catch_up fuel' ts (lag - ts) (ups ++ [ts])
      else Some (lag, ups)
  end.

(** [Engine._mainloop(elapsed)]. *)
Definition mainloop (fuel : nat) (e : EngineClock) (elapsed : PrimFloat.float)
  : option EngineClock :=
  let elapsedMs := elapsed * timescale e in
  let ts := fixedUpdateTimestep e in
  if truthy ts then
    match catch_up fuel ts (lagMs e + elapsedMs) (updates e) with
    | Some (lag, ups) => Some (mkEngineClock ts (timescale e) lag elapsedMs lag ups)
    | None => None
    end
  else
    Some (mkEngineClock ts (timescale e) (lagMs e) elapsedMs (lagMs e)
                        (updates e ++ [elapsedMs])).

(** Successive clock ticks, one per real elapsed-time sample. *)
Fixpoint run (fuel : nat) (e : EngineClock) (samples : list PrimFloat.float)
  : option EngineClock :=
  match samples with
  | [] => Some e
  | x :: xs =>
      match mainloop fuel e x with
      | Some e' => run fuel e' xs
      | None => None
      end
  end.

(** A freshly built engine with [fixedUpdateTimestep = ts] and timescale 1. *)
Definition fresh (ts : PrimFloat.float) : EngineClock := mkEngineClock ts 1 0 0 0 [].

(** The server's configuration: [fixedUpdateTimestep: 1000 / 60]. *)
Definition serverTimestep : PrimFloat.float := 1000 / 60.

(** Four timesteps of real time, as one sample or as four. *)
Definition oneSample : list PrimFloat.float := [4 * serverTimestep].
Definition fourSamples : list PrimFloat.float :=
  [serverTimestep; serverTimestep; serverTimestep; serverTimestep].
Definition sum (l : list PrimFloat.float) : PrimFloat.float := fold_left add l 0.
(** The [timescale] setter: [if (value < 0) { warnOnce(...); return; }
    this._timescale = value;].  [NaN < 0] is false, so [NaN] is stored. *)
Definition set_timescale (e : EngineClock) (v : PrimFloat.float) : EngineClock :=
  if v <? 0 then e
  else mkEngineClock (fixedUpdateTimestep e) v (lagMs e) (currentFrameElapsedMs e)
                     (currentFrameLagMs e) (updates e).

(** The calls a user of the engine makes over time: a clock tick
    ([_mainloop(elapsed)]) or an assignment to [engine.timescale]. *)
Inductive EngineCall : Type :=
  | Tick (elapsed : PrimFloat.float)
  | SetTimescale (v : PrimFloat.float).

Fixpoint drive (fuel : nat) (e : EngineClock) (calls : list EngineCall)
  : option EngineClock :=
  match calls with
  | [] => Some e
  | Tick x :: cs =>
      match mainloop fuel e x with
      | Some e' => drive fuel e' cs
      | None => None
      end
  | SetTimescale v :: cs => drive fuel (set_timescale e v) cs
  end.

(** The constructor's
    [this.fixedUpdateTimestep = options.fixedUpdateTimestep ?? this.fixedUpdateTimestep;
     this.fixedUpdateFps = options.fixedUpdateFps ?? this.fixedUpdateFps;
     this.fixedUpdateTimestep = this.fixedUpdateTimestep || 1000 / this.fixedUpdateFps;]
    with [None] for an option left out ([undefined], which is [NaN] as a
    number operand). *)
Definition engine_timestep (optTs optFps : option PrimFloat.float) : PrimFloat.float :=
  let fps := match optFps with Some f => f | None => PrimFloat.nan end in
  match optTs with
  | Some t => if truthy t then t else 1000 / fps
  | None => 1000 / fps
  end.

(** The clock fields of [new Engine(options)]: [_timescale = 1.0],
    [_lagMs = 0], [currentFrameElapsedMs = 0], [currentFrameLagMs = 0]. *)
Definition engine_clock (optTs optFps : option PrimFloat.float) : EngineClock :=
  fresh (engine_timestep optTs optFps).
End Clock.

(* ------------------------------------------------------------------ *)
(** ** [Scene._initialize] (Scene.ts) *)

Section SceneInitialize.
(** The state of a [Scene] subclass that its user hooks may touch. *)
Variable UserState : Type.
(** The user override [onInitialize(engine)] and [_initializeChildren()]
    ([child._initialize(engine)] for every entity); [None] is an exception. *)
Variable onInitialize : UserState -> option UserState.
Variable initializeChildren : UserState -> option UserState.

Record SceneInit : Type := mkSceneInit {
  si_isInitialized : bool;
  si_engine : option nat;
  si_user : UserState;
  si_onInitializeCalls : nat;
  si_events : list string;
  si_logs : list string
}.

Inductive Completion (A : Type) : Type :=
  | Ok (a : A)
  | Throw (a : A).
Arguments Ok {A} a.
Arguments Throw {A} a.

(** [Scene._initialize(engine)]: the body runs only while
    [isInitialized] is false; [_isInitialized] is set after the [try]
    block, so an exception leaves it false. *)
Definition scene_initialize (engine : nat) (st : SceneInit) : Completion SceneInit :=
  if si_isInitialized st then Ok st
  else
    let calls := S (si_onInitializeCalls st) in
    match onInitialize (si_user st) with
    | None =>
        Throw (mkSceneInit false (Some engine) (si_user st) calls (si_events st)
                 (si_logs st ++ ["Error during scene initialization"%string]))
    | Some u1 =>
        match initializeChildren u1 with
        | None =>
            Throw (mkSceneInit false (Some engine) u1 calls (si_events st)
                     (si_logs st ++ ["Error during scene initialization"%string]))
        | Some u2 =>
            Ok (mkSceneInit true (Some engine) u2 calls (si_events st ++ ["initialize"%string])
                  (si_logs st))
        end
    end.

(** Two calls in sequence, the second only after the first completed. *)
Definition initialize_twice (engine : nat) (st : SceneInit) : Completion SceneInit :=
  match scene_initialize engine st with
  | Ok st1 => scene_initialize engine st1
  | Throw st1 => Throw st1
  end.
End SceneInitialize.

Arguments Ok {A} a.
Arguments Throw {A} a.

(* ------------------------------------------------------------------ *)
(** ** Scene navigation: [Director] (Director/Director.ts) *)

Module Director.

(** A scene or a scene constructor, by identity. *)
Inductive SceneOrCtor : Type :=
  | SInst (n : nat)
  | SCtor (c : nat).

(** A value stored in [scenes]: [Scene | SceneConstructor | SceneWithOptions]. *)
Inductive SceneDef : Type :=
  | Plain (s : SceneOrCtor)
  | WithOptions (s : SceneOrCtor).

(** The value of [this.scenes[name]] on the plain object [scenes]: an own
    property, or what [Object.prototype] supplies for [name]. *)
Inductive PropValue : Type :=
  | PScene (d : SceneDef)
  | PObjectCtor          (* [Object], reached through "constructor" *)
  | PObjectProto         (* [Object.prototype], reached through "__proto__" *)
  | PBuiltinMethod       (* a method of [Object.prototype], without [prototype] *)
  | PUndefined.

Definition objectPrototypeMethods : list string :=
  ["hasOwnProperty"; "isPrototypeOf"; "propertyIsEnumerable"; "toString";
   "toLocaleString"; "valueOf"; "__defineGetter__"; "__defineSetter__";
   "__lookupGetter__"; "__lookupSetter__"]%string.

Fixpoint assoc {V : Type} (k : string) (l : list (string * V)) : option V :=
  match l with
  | [] => None
  | (k', v) :: l' => if String.eqb k k' then Some v else assoc k l'
  end.

(** Property assignment: overwrite in place, or append a new key. *)
Fixpoint assoc_set {V : Type} (k : string) (v : V) (l : list (string * V))
  : list (string * V) :=
  match l with
  | [] => [(k, v)]
  | (k', v') :: l' => if String.eqb k k' then (k', v) :: l'
                      else (k', v') :: assoc_set k v l'
  end.

(** [delete obj[k]] / [Map.delete(k)]. *)
Definition assoc_delete {V : Type} (k : string) (l : list (string * V))
  : list (string * V) :=
  filter (fun kv => negb (String.eqb k (fst kv))) l.

Definition js_get (scenes : list (string * SceneDef)) (k : string) : PropValue :=
  match assoc k scenes with
  | Some d => PScene d
  | None =>
      if String.eqb k "constructor" then PObjectCtor
      else if String.eqb k "__proto__" then PObjectProto
      else if existsb (String.eqb k) objectPrototypeMethods then PBuiltinMethod
      else PUndefined
  end.

(** What [getSceneDefinition] can return. *)
Inductive Definition_ : Type :=
  | DScene (n : nat)     (* a [Scene] instance *)
  | DCtor (c : nat)      (* a [Scene] constructor *)
  | DObjectCtor.         (* [Object]: [isSceneConstructor(Object)] holds *)

Definition of_sceneOrCtor (s : SceneOrCtor) : Definition_ :=
  match s with SInst n => DScene n | SCtor c => DCtor c end.

(** [getSceneDefinition(name)]: [maybeScene instanceof Scene ||
    isSceneConstructor(maybeScene)] returns it, another truthy value
    returns its [.scene] (undefined for the [Object.prototype] values). *)
Definition getSceneDefinition (scenes : list (string * SceneDef)) (k : string)
  : option Definition_ :=
  match js_get scenes k with
  | PScene (Plain s) => Some (of_sceneOrCtor s)
  | PScene (WithOptions s) => Some (of_sceneOrCtor s)
  | PObjectCtor => Some DObjectCtor
  | PObjectProto | PBuiltinMethod | PUndefined => None
  end.

(** An instantiated value: a [Scene], or the plain object [new Object()]. *)
Inductive Inst : Type :=
  | IScene (n : nat)
  | IPlainObject (n : nat).

Definition inst_eqb (a b : Inst) : bool :=
  match a, b with
  | IScene n, IScene m => Nat.eqb n m
  | IPlainObject n, IPlainObject m => Nat.eqb n m
  | _, _ => false
  end.

(** Lifecycle hooks observed, with the Director's pointers at that moment. *)
Inductive EvKind : Type :=
  | KDeactivate
  | KInitialize
  | KActivate (data : option nat)
  | KNavigation (phase : string).

Record Event : Type := mkEvent {
  ev_kind : EvKind;
  ev_scene : Inst;
  ev_current : Inst;
  ev_currentName : string
}.

Record Director : Type := mkDirector {
  initialized : bool;
  deferredGoto : option string;
  currentSceneName : string;
  currentScene : Inst;
  scenes : list (string * SceneDef);
  sceneToInstance : list (string * Inst);
  sceneInitialized : list nat;   (* instances whose [isInitialized] is true *)
  nextId : nat;                  (* identity of the next object built *)
  trace : list Event;
  logs : list string
}.

Definition with_trace (d : Director) (t : list Event) : Director :=
  mkDirector (initialized d) (deferredGoto d) (currentSceneName d) (currentScene d)
    (scenes d) (sceneToInstance d) (sceneInitialized d) (nextId d) t (logs d).

Definition with_logs (d : Director) (l : list string) : Director :=
  mkDirector (initialized d) (deferredGoto d) (currentSceneName d) (currentScene d)
    (scenes d) (sceneToInstance d) (sceneInitialized d) (nextId d) (trace d) l.

Definition with_deferred (d : Director) (g : option string) : Director :=
  mkDirector (initialized d) g (currentSceneName d) (currentScene d)
    (scenes d) (sceneToInstance d) (sceneInitialized d) (nextId d) (trace d) (logs d).

Definition with_initialized (d : Director) (b : bool) : Director :=
  mkDirector b (deferredGoto d) (currentSceneName d) (currentScene d)
    (scenes d) (sceneToInstance d) (sceneInitialized d) (nextId d) (trace d) (logs d).

Definition with_current (d : Director) (s : Inst) (nm : string) : Director :=
  mkDirector (initialized d) (deferredGoto d) nm s
    (scenes d) (sceneToInstance d) (sceneInitialized d) (nextId d) (trace d) (logs d).

Definition emit (d : Director) (k : EvKind) (s : Inst) : Director :=
  with_trace d (trace d ++ [mkEvent k s (currentScene d) (currentSceneName d)]).

Definition log (d : Director) (m : string) : Director := with_logs d (logs d ++ [m]).

(** [scene.isInitialized]; [undefined] (falsy) on a plain object. *)
Definition isInitialized (d : Director) (s : Inst) : bool :=
  match s with
  | IScene n => existsb (Nat.eqb n) (sceneInitialized d)
  | IPlainObject _ => false
  end.

(** [getSceneInstance(name)]: may build and cache an instance. *)
Definition getSceneInstance (d : Director) (k : string) : Director * option Inst :=
  match getSceneDefinition (scenes d) k with
  | None => (d, None)
  | Some def =>
      match assoc k (sceneToInstance d) with
      | Some i => (d, Some i)
      | None =>
          match def with
          | DScene n =>
              (mkDirector (initialized d) (deferredGoto d) (currentSceneName d)
                 (currentScene d) (scenes d) (assoc_set k (IScene n) (sceneToInstance d))
                 (sceneInitialized d) (nextId d) (trace d) (logs d), Some (IScene n))
          | DCtor _ =>
              let i := IScene (nextId d) in
              (mkDirector (initialized d) (deferredGoto d) (currentSceneName d)
                 (currentScene d) (scenes d) (assoc_set k i (sceneToInstance d))
                 (sceneInitialized d) (S (nextId d)) (trace d) (logs d), Some i)
          | DObjectCtor =>
              let i := IPlainObject (nextId d) in
              (mkDirector (initialized d) (deferredGoto d) (currentSceneName d)
                 (currentScene d) (scenes d) (assoc_set k i (sceneToInstance d))
                 (sceneInitialized d) (S (nextId d)) (trace d) (logs d), Some i)
          end
      end
  end.

(** [currentScene._initialize(engine)] on the Director's side: runs the
    user [onInitialize] once; a plain object has no [_initialize], the call
    is a [TypeError]. *)
Definition initialize_current (d : Director) : Completion Director :=
  match currentScene d with
  | IPlainObject _ => Throw d
  | IScene n as s =>
      if isInitialized d s then Ok d
      else
        let d1 := emit d KInitialize s in
        Ok (mkDirector (initialized d1) (deferredGoto d1) (currentSceneName d1)
              (currentScene d1) (scenes d1) (sceneToInstance d1)
              (n :: sceneInitialized d1) (nextId d1) (trace d1) (logs d1))
  end.

(** [currentScene._activate(context)], then the [activate] event. *)
Definition activate_current (d : Director) (data : option nat) : Completion Director :=
  match currentScene d with
  | IPlainObject _ => Throw d
  | IScene _ as s => Ok (emit d (KActivate data) s)
  end.

(** [swapScene(destinationScene, data)]; the awaits are taken in order. *)
Definition swapScene (d : Director) (dest : string) (data : option nat)
  : Completion Director :=
  if negb (initialized d) then Ok (with_deferred d (Some dest))
  else
    match getSceneInstance d dest with
    | (d1, None) => Ok (log d1 "Scene does not exist!")
    | (d1, Some nextScene) =>
        let previousScene := currentScene d1 in
        let d2 := if isInitialized d1 previousScene
                  then emit d1 KDeactivate previousScene else d1 in
        let d3 := with_current d2 nextScene dest in
        match initialize_current d3 with
        | Throw d4 => Throw d4
        | Ok d4 => activate_current d4 data
        end
    end.

Definition navigation_event (d : Director) (phase : string) : Director :=
  emit d (KNavigation phase) (currentScene d).

(** [goToScene(destinationScene, options)], [data] being
    [options.sceneActivationData]. *)
Definition goToScene (d : Director) (dest : string) (data : option nat)
  : Completion Director :=
  match getSceneInstance d dest with
  | (d1, None) => Ok (log d1 "Scene does not exist! Check the name, are you sure you added it?")
  | (d1, Some _) =>
      let d2 := navigation_event d1 "navigationstart" in
      match swapScene d2 dest data with
      | Throw d3 => Throw d3
      | Ok d3 => Ok (navigation_event (navigation_event d3 "navigation") "navigationend")
      end
  end.

(** [Director.onInitialize()]: [if (this._deferredGoto)] tests the
    stored name for truthiness, so an empty name is not taken as a pending
    navigation: "root" is navigated to and [_deferredGoto] keeps [""]. *)
Definition onInitialize (d : Director) : Completion Director :=
  if initialized d then Ok d
  else
    let d1 := with_initialized d true in
    match deferredGoto d1 with
    | Some deferredScene =>
        if String.eqb deferredScene "" then swapScene d1 "root" None
        else swapScene (with_deferred d1 None) deferredScene None
    | None => swapScene d1 "root" None
    end.

(** The argument of [remove]. *)
Inductive RemoveArg : Type :=
  | RName (k : string)
  | RScene (n : nat)
  | RCtor (c : nat).

Definition sceneOf (def : SceneDef) : SceneOrCtor :=
  match def with Plain s => s | WithOptions s => s end.

(** [scene === sceneOrCtor] *)
Definition same_ref (s : SceneOrCtor) (r : RemoveArg) : bool :=
  match s, r with
  | SInst n, RScene m => Nat.eqb n m
  | SCtor c, RCtor c' => Nat.eqb c c'
  | _, _ => false
  end.

Definition delete_key (d : Director) (k : string) : Director :=
  mkDirector (initialized d) (deferredGoto d) (currentSceneName d) (currentScene d)
    (assoc_delete k (scenes d)) (assoc_delete k (sceneToInstance d))
    (sceneInitialized d) (nextId d) (trace d) (logs d).

(** The [for (const key in this.scenes)] loop of [remove] over the keys
    present when it starts. *)
Fixpoint remove_loop (keys : list (string * SceneDef)) (r : RemoveArg) (d : Director)
  : Completion Director :=
  match keys with
  | [] => Ok d
  | (key, def) :: keys' =>
      if same_ref (sceneOf def) r then
        if String.eqb key (currentSceneName d) then Throw d
        else remove_loop keys' r (delete_key d key)
      else remove_loop keys' r d
  end.

(** [Director.remove(nameOrScene)]; [Throw] is
    [new Error("Cannot remove a currently active scene: ...")]. *)
Definition remove (d : Director) (r : RemoveArg) : Completion Director :=
  match r with
  | RName k =>
      if String.eqb k (currentSceneName d) then Throw d else Ok (delete_key d k)
  | RScene _ | RCtor _ => remove_loop (scenes d) r d
  end.

Definition with_scenes (d : Director) (sc : list (string * SceneDef)) : Director :=
  mkDirector (initialized d) (deferredGoto d) (currentSceneName d) (currentScene d)
    sc (sceneToInstance d) (sceneInitialized d) (nextId d) (trace d) (logs d).

(** [add(name, sceneOrRoute)]: [this.scenes[name]] is read through the
    prototype chain for the warning, then assigned as an own property.  For
    [name = "__proto__"] the JS assignment sets the object's prototype
    instead of adding a property; that key is outside this model, and the
    statements about [add] exclude it. *)
Definition add (d : Director) (k : string) (s : SceneDef) : Director :=
  let d1 := match js_get (scenes d) k with
            | PUndefined => d
            | _ => log d "Scene already exists overwriting"
            end in
  with_scenes d1 (assoc_set k s (scenes d1)).

(** [configureStart(startScene)]: the new value of the [startScene] field,
    with the Director.  The promise of [swapScene] is not awaited, so its
    rejection does not reach the caller of [configureStart].  On a Director
    that is not initialized [swapScene] completes synchronously, as here; on
    an initialized one the JS code sets [currentSceneName] after only the
    part of [swapScene] before its first [await], while this definition runs
    all of it first. *)
Definition configureStart (d : Director) (k : string) : string * Director :=
  let d1 := match swapScene d k None with Ok d' => d' | Throw d' => d' end in
  (k, with_current d1 (currentScene d1) k).



End Director.

(* ------------------------------------------------------------------ *)
(** ** Joining a room and key messages (src/server/server.ts) *)

(** [rooms[roomId]] on the plain object [rooms]: an own property, a value
    inherited from [Object.prototype] (a function or the prototype itself,
    truthy and without [players] or [gameEngine]), or [undefined]. *)
Inductive RoomProp : Type :=
  | RWorld (w : WorldState)
  | RInherited
  | RUndefined.

Definition inherited_key (k : string) : bool :=
  String.eqb k "constructor" || String.eqb k "__proto__" ||
  existsb (String.eqb k) Director.objectPrototypeMethods.

Definition rooms_get (rs : Rooms) (k : string) : RoomProp :=
  match room_lookup rs k with
  | Some w => RWorld w
  | None => if inherited_key k then RInherited else RUndefined
  end.

(** The [ServerTransmitEntities] record built for an actor:
    [{ id: a.uuid, networkId, position: { x: a.pos.x, y: a.pos.y, ... } }]. *)
Definition ste_of (nid : string) (a : Actor) : ServerTransmitEntity :=
  mkSTE (uuid a) nid (pos a).

(** What [UUID.generateUUID()] and [rng.integer(0, 800)],
    [rng.integer(0, 600)] produce for one new actor. *)
Definition Spawn := (string * Z * Z)%type.

Definition spawn_npc (sp : Spawn) : Actor :=
  let '(id, x, y) := sp in newNPCActor id x y.

Definition spawn_client (userId : string) (sp : Spawn) : Actor :=
  let '(id, x, y) := sp in newClientActor userId id x y.

(** [subscribeUser(roomId, userId)]; [None] is the [TypeError] of
    [existingRoom.players.find] on an inherited value.  A new room gets three
    NPCs (entries with [networkId ""]) before the user; the entities are those
    of [gameEngine.currentScene], which holds the [MainScene] by the time the
    actors are added (engine start and [goToScene] run synchronously up to
    their first [await]). *)
Definition subscribeUser (rs : Rooms) (roomId userId : string) (n1 n2 n3 me : Spawn)
  : option Rooms :=
  match rooms_get rs roomId with
  | RInherited => None
  | RWorld w =>
      if existsb (fun p => String.eqb (networkId p) userId) (players w) then Some rs
      else
        let a := spawn_client userId me in
        Some (room_update rs roomId
                (mkWorldState (players w ++ [ste_of userId a]) (entities w ++ [a]) (killed w)))
  | RUndefined =>
      let t1 := spawn_npc n1 in
      let t2 := spawn_npc n2 in
      let t3 := spawn_npc n3 in
      let a := spawn_client userId me in
      Some (rs ++ [(roomId,
                    mkWorldState [ste_of "" t1; ste_of "" t2; ste_of "" t3; ste_of userId a]
                                 [t1; t2; t3; a] [])])
  end.

(** A decoded message: [msg.type] and [msg.direction]. *)
Record Msg : Type := mkMsg { msg_type : string; msg_direction : string }.

(** The body of [if (playerEntity) { ... }] on the entity found. *)
Definition handle_message (a : Actor) (m : Msg) : Actor :=
  let d := msg_direction m in
  let ds := directions a in
  if String.eqb (msg_type m) "keypress" then
    if negb (includes d ds) then set_directions a (ds ++ [d]) else a
  else if String.eqb (msg_type m) "keyrelease" then
    if includes d ds then set_directions a (splice1 (findIndex (String.eqb d) ds) ds) else a
  else a.

(** In-place mutation of the entity that [find_by_name] returned. *)
Fixpoint update_by_name (n : string) (f : Actor -> Actor) (es : list Actor) : list Actor :=
  match es with
  | [] => []
  | e :: es' => if String.eqb (name e) n then f e :: es' else e :: update_by_name n f es'
  end.

(** [onMessage(roomId, userId, data)], [m] being [JSON.parse] of the data;
    [None] is the [TypeError] of [room.gameEngine] / [engine.currentScene]
    on a room that is not an own property. *)
Definition onMessage (rs : Rooms) (roomId userId : string) (m : Msg) : option Rooms :=
  match rooms_get rs roomId with
  | RWorld w =>
      match find_by_name userId (entities w) with
      | Some _ =>
          Some (room_update rs roomId
                  (mkWorldState (players w)
                     (update_by_name userId (fun a => handle_message a m) (entities w))
                     (killed w)))
      | None => Some rs
      end
  | RInherited | RUndefined => None
  end.

(** [ClientActor.onCollisionEnd]: the collision data is reset to
    [{ isColliding: false, collisionDirection: Side.None, other: null }]. *)
Definition onCollisionEnd (a : Actor) : Actor := set_collisionData a initialCollisionData.

(** Reference description of one unobstructed movement step: each held
    direction moves [position] by [playerSpeed] along its axis. *)
Definition free_move (a : Actor) : Actor :=
  let ds := directions a in
  let '(x, y) := position a in
  set_position a
    (x - (if includes "left" ds then playerSpeed else 0)
       + (if includes "right" ds then playerSpeed else 0),
     y - (if includes "up" ds then playerSpeed else 0)
       + (if includes "down" ds then playerSpeed else 0)).

(** [Scene.addTimer(timer)]: [this._timers.push(timer)]. *)
Definition addTimer (ts : list Timer) (t : Timer) : list Timer := ts ++ [t].

(** [Scene.cancelTimer(timer)]: [this._cancelQueue.push(timer)]. *)
Definition cancelTimer (st : SceneState) (t : Timer) : SceneState :=
  mkSceneState (sc_isInitialized st) (sc_world st) (sc_timers st)
               (sc_cancelQueue st ++ [t]) (sc_broadcasts st).

(* ------------------------------------------------------------------ *)
(** ** Concrete rooms and directors used below *)

Module Fixtures.
(** Two players; "alice" holds up and left and touches something above her. *)
Definition alice : Actor :=
  mkActor "alice" "a" (100, 100) (100, 100) 24 24 Passive ["up"; "left"]%string
          (mkCollisionData true Side.Top (Some "n1"%string)).
Definition bob : Actor :=
  mkActor "bob" "b" (200, 200) (200, 200) 24 24 Passive ["left"]%string
          initialCollisionData.
Definition blockedRoom : WorldState :=
  mkWorldState [mkSTE "a" "alice" (100, 100); mkSTE "b" "bob" (200, 200)]
               [alice; bob] [].

(** A player holding "down" at (100,100) above an NPC at (100,124). *)
Definition walker : Actor := set_directions (newClientActor "alice" "a" 100 100) ["down"%string].
Definition wallNPC : Actor := newNPCActor "n1" 100 124.
Definition walkRoom : WorldState :=
  mkWorldState [mkSTE "n1" "" (100, 124); mkSTE "a" "alice" (100, 100)]
               [wallNPC; walker] [].

(** A player that spawned overlapping an NPC below it. *)
Definition spawned : Actor := newClientActor "alice" "a" 100 110.
Definition spawnScene : SceneState :=
  mkSceneState true
    (mkWorldState [mkSTE "n1" "" (100, 124); mkSTE "a" "alice" (100, 110)]
                  [wallNPC; spawned] [])
    [] [] [].

(** An existing room whose players list has become empty. *)
Definition emptyRoom : WorldState := mkWorldState [] [] [].
End Fixtures.

(** Directors: "root" is an initialized instance (id 0) and current; "main"
    is registered as a constructor (id 7). *)
Module DirectorFixtures.
Import Director.

Definition registry : list (string * SceneDef) :=
  [("root"%string, Plain (SInst 0)); ("main"%string, Plain (SCtor 7))].

Definition atRoot : Director :=
  mkDirector true None "root" (IScene 0) registry [("root"%string, IScene 0)]
             [0%nat] 1 [] [].

(** After navigating to "main": its instance (id 1) is current. *)
Definition atMain : Director :=
  mkDirector true None "main" (IScene 1) registry
             [("root"%string, IScene 0); ("main"%string, IScene 1)]
             [0%nat; 1%nat] 2 [] [].

(** Not yet initialized. *)
Definition beforeInit : Director :=
  mkDirector false None "root" (IScene 0) registry [] [] 0 [] [].
End DirectorFixtures.

(* ================================================================== *)
(** * Properties *)

(** ** Helper lemmas on the movement pass *)

Lemma replace_entity_snapshot (id : string) (a a' : Actor) (es : list Actor) :
  find_entity id es = Some a -> uuid a' = uuid a -> pos a' = pos a ->
  snapshot_of (replace_entity a' es) = snapshot_of es.
Proof.
  induction es as [| e es IH]; simpl; intros Hf Hu Hp; [discriminate |].
  destruct (String.eqb (uuid e) id) eqn:He.
  - injection Hf as <-. rewrite Hu, String.eqb_refl. simpl. now rewrite Hu, Hp.
  - apply String.eqb_neq in He.
    destruct (String.eqb (uuid e) (uuid a')) eqn:He'.
    + apply String.eqb_eq in He'. exfalso.
      clear IH. induction es as [| e2 es IH2]; simpl in Hf; [discriminate |].
      destruct (String.eqb (uuid e2) id) eqn:He2; [| now apply IH2].
      injection Hf as <-. apply String.eqb_eq in He2. congruence.
    + simpl. f_equal. now apply IH.
Qed.

Lemma direction_step_keeps (d : string) (s : Side.Side) (dx dy : Z) (f : Flow) (a : Actor) :
  (match f with Next x | Return x => uuid x = uuid a /\ pos x = pos a end) ->
  (match direction_step d s dx dy f with Next x | Return x => uuid x = uuid a /\ pos x = pos a end).
Proof.
  destruct f as [x | x]; simpl; [| tauto].
  destruct (includes d (directions x)), (blocked x s); simpl; auto.
  destruct (position x); simpl; auto.
Qed.

Lemma move_player_keeps (a : Actor) :
  match move_player a with Next x | Return x => uuid x = uuid a /\ pos x = pos a end.
Proof.
  unfold move_player. destruct (0 <? _)%Z; [| simpl; auto].
  repeat apply direction_step_keeps. simpl. auto.
Qed.

Lemma find_entity_uuid (id : string) (es : list Actor) (a : Actor) :
  find_entity id es = Some a -> uuid a = id.
Proof.
  induction es as [| e es IH]; simpl; [discriminate |].
  destruct (String.eqb (uuid e) id) eqn:He; [| exact IH].
  intros H; injection H as <-. now apply String.eqb_eq.
Qed.

(** The movement pass only writes [position]: the snapshot view is unchanged. *)
Lemma update_players_snapshot (ps : list ServerTransmitEntity) (es es' : list Actor) :
  update_players ps es = Some es' -> snapshot_of es' = snapshot_of es.
Proof.
  revert es. induction ps as [| p ps IH]; simpl; intros es H.
  - now injection H as <-.
  - destruct (find_entity (ste_id p) es) as [a |] eqn:Hf; [| discriminate].
    pose proof (move_player_keeps a) as Hk.
    destruct (move_player a) as [a' | a']; destruct Hk as [Hu Hp].
    + rewrite (IH _ H). now apply (replace_entity_snapshot (ste_id p) a).
    + injection H as <-. now apply (replace_entity_snapshot (ste_id p) a).
Qed.

(** ** Helper lemmas on [splice] and [findIndex] *)

Lemma splice1_succ {A : Type} (i : Z) (x : A) (l : list A) :
  0 <= i -> splice1 (i + 1) (x :: l) = x :: splice1 i l.
Proof.
  intros Hi. unfold splice1. simpl length.
  replace (i + 1 <? 0) with false by (symmetry; apply Z.ltb_ge; lia).
  replace (i <? 0) with false by (symmetry; apply Z.ltb_ge; lia).
  rewrite Nat2Z.inj_succ.
  replace (Z.min (i + 1) (Z.succ (Z.of_nat (length l))))
    with (Z.min i (Z.of_nat (length l)) + 1) by lia.
  rewrite Z2Nat.inj_add by lia. rewrite Nat.add_1_r. simpl. reflexivity.
Qed.

Lemma findIndex_nonneg {A : Type} (f : A -> bool) (l : list A) :
  existsb f l = true -> 0 <= findIndex f l.
Proof.
  induction l as [| x l IH]; simpl; [discriminate |].
  destruct (f x); simpl; [lia |]. intros H.
  specialize (IH H). destruct (findIndex f l <? 0) eqn:E; [apply Z.ltb_lt in E |]; lia.
Qed.

Lemma findIndex_absent {A : Type} (f : A -> bool) (l : list A) :
  existsb f l = false -> findIndex f l = -1.
Proof.
  induction l as [| x l IH]; simpl; [reflexivity |].
  destruct (f x); simpl; [discriminate |]. intros H. now rewrite (IH H).
Qed.

Lemma splice1_findIndex_present {A : Type} (f : A -> bool) (l : list A) :
  existsb f l = true -> splice1 (findIndex f l) l = remove_first f l.
Proof.
  induction l as [| x l IH]; simpl; [discriminate |].
  destruct (f x) eqn:Fx; simpl.
  - intros _. unfold splice1. simpl. reflexivity.
  - intros H. pose proof (findIndex_nonneg f l H) as Hn.
    replace (findIndex f l <? 0) with false by (symmetry; apply Z.ltb_ge; lia).
    rewrite splice1_succ by lia. now rewrite IH.
Qed.

Lemma splice1_minus_one {A : Type} (l : list A) : splice1 (-1) l = removelast l.
Proof.
  rewrite removelast_firstn_len. unfold splice1. simpl.
  destruct l as [| x l]; [reflexivity |].
  simpl length. rewrite Nat2Z.inj_succ.
  replace (Z.max (Z.succ (Z.of_nat (length l)) + -1) 0) with (Z.of_nat (length l)) by lia.
  rewrite Nat2Z.id. simpl pred.
  rewrite skipn_all2 by (simpl; lia).
  apply app_nil_r.
Qed.

Lemma room_lookup_update (rs : Rooms) (k : string) (w w' : WorldState) :
  room_lookup rs k = Some w -> room_lookup (room_update rs k w') k = Some w'.
Proof.
  induction rs as [| [k' v] rs IH]; simpl; [discriminate |].
  destruct (String.eqb k k') eqn:E; simpl; rewrite E; auto.
Qed.

(** ** C1: movement gating in [updateEntities] *)

(** C1 (divergence at a concrete room).  With "alice" colliding on her Top
    side and holding "up" and "left", and "bob" holding "left" after her,
    [updateEntities] returns from the whole pass at the blocked "up": alice is
    not moved left and bob is not moved at all. *)
Theorem updateEntities_blocked_up_stops_pass :
  updateEntities Fixtures.blockedRoom = Some Fixtures.blockedRoom.
Proof. vm_compute. reflexivity. Qed.

(** ** C5: exact un-overlapping in [onCollisionStart] *)

(** C5.  A Passive 24x24 player at (100,100) holding "down" moves to y = 104
    in the movement pass, overlaps the Fixed 24x24 NPC at (100,124) on its
    Bottom side, and after [onCollisionStart] runs once its [position.y] and
    [pos.y] are exactly 100: its bottom edge touches the NPC's top edge. *)
Theorem collision_resolution_exact_adjacency :
  match updateEntities Fixtures.walkRoom with
  | Some w =>
      option_map position (find_entity "a" (entities w)) = Some (100, 104) /\
      match find_entity "a" (collision_pass (map entity_onPreUpdate (entities w))) with
      | Some a' =>
          collisionDirection (collisionData a') = Side.Bottom /\
          snd (position a') = 100 /\ snd (pos a') = 100 /\
          snd (pos a') + height a' = snd (pos Fixtures.wallNPC)
      | None => False
      end
  | None => False
  end.
Proof. vm_compute. repeat split. Qed.

(** ** C9: [unsubscribeUser] and [splice(-1, 1)] *)

(** C9 (counterexample).  In an existing room whose players list is empty, an
    unknown user id removes nothing: no last entry to remove. *)
Lemma unsubscribe_empty_players_removes_nothing :
  room_lookup (unsubscribeUser [("r"%string, Fixtures.emptyRoom)] "r" "u") "r"
  = Some Fixtures.emptyRoom /\ players Fixtures.emptyRoom = [].
Proof. split; reflexivity. Qed.

(** C9 (amended).  For an existing room, [unsubscribeUser] removes the first
    player whose [networkId] is [userId] when there is one; otherwise it
    removes the last entry of the players list ([removelast]: nothing when the
    list is empty). *)
Theorem unsubscribeUser_players (rs : Rooms) (roomId userId : string) (w : WorldState) :
  room_lookup rs roomId = Some w ->
  exists w', room_lookup (unsubscribeUser rs roomId userId) roomId = Some w' /\
    players w' =
      (if existsb (fun p => String.eqb (networkId p) userId) (players w)
       then remove_first (fun p => String.eqb (networkId p) userId) (players w)
       else removelast (players w)).
Proof.
  intros Hw. unfold unsubscribeUser. rewrite Hw.
  eexists. split; [now apply room_lookup_update with (w := w) |].
  unfold unsubscribe_room. simpl.
  destruct (existsb _ (players w)) eqn:E.
  - now apply splice1_findIndex_present.
  - rewrite findIndex_absent by exact E. apply splice1_minus_one.
Qed.

(** ** C2: which positions a tick's snapshot carries *)

(** C2 (counterexample).  A player that spawned overlapping an NPC is moved
    from y = 110 to y = 100 by this tick's collision resolution, but the
    snapshot broadcast in the same [Scene.update] still carries y = 110. *)
Lemma snapshot_carries_pre_resolution_position :
  match scene_update (fun _ t => t) (fun _ => collision_pass) Fixtures.spawnScene 16 with
  | Some st' =>
      option_map (fun a => (isColliding (collisionData a), pos a))
        (find_entity "a" (entities (sc_world st'))) = Some (true, (100, 100)) /\
      sc_broadcasts st' = [[("n1", 100, 124);
                            ("a", 100, 110)]]%string /\
      (100, 110) <> (100, 100)
  | None => False
  end.
Proof. vm_compute. split; [reflexivity | split; [reflexivity | congruence]]. Qed.

(** C2 (amended).  Whatever the ECS systems do, the snapshot that a tick of
    an initialized [MainScene] broadcasts is the [pos] of every entity as it
    stood when [Scene.update] began: the movement pass writes [position]
    only, and the collision pass runs after the snapshot is taken. *)
Theorem snapshot_is_taken_before_systems
    (timer_update : Z -> Timer -> Timer) (systems_update : Z -> list Actor -> list Actor)
    (st st' : SceneState) (elapsed : Z) :
  sc_isInitialized st = true ->
  scene_update timer_update systems_update st elapsed = Some st' ->
  sc_broadcasts st' = sc_broadcasts st ++ [snapshot_of (entities (sc_world st))] /\
  entities (sc_world st') =
    systems_update elapsed
      (match updateEntities (sc_world st) with Some w => entities w | None => [] end).
Proof.
  intros Hi. unfold scene_update. rewrite Hi. simpl.
  unfold mainScene_onPreUpdate, updateEntities.
  destruct (update_players (players (sc_world st)) (entities (sc_world st))) as [es |] eqn:E;
    [| discriminate].
  intros H. injection H as <-. simpl.
  now rewrite (update_players_snapshot _ _ _ E).
Qed.

(** ** C4: fixed-step catch-up in [Engine._mainloop] *)

Lemma catch_up_spec (fuel : nat) (ts lag : PrimFloat.float) (ups : list PrimFloat.float)
    (lag' : PrimFloat.float) (ups' : list PrimFloat.float) :
  Clock.catch_up fuel ts lag ups = Some (lag', ups') ->
  PrimFloat.leb ts lag' = false /\ exists k, ups' = ups ++ repeat ts k.
Proof.
  revert lag ups. induction fuel as [| fuel IH]; simpl; intros lag ups H; [discriminate |].
  destruct (PrimFloat.leb ts lag) eqn:E.
  - destruct (IH _ _ H) as [Hl [k Hk]]. split; [exact Hl |].
    exists (S k). rewrite Hk, <- app_assoc. reflexivity.
  - injection H as <- <-. split; [exact E |]. exists O. now rewrite app_nil_r.
Qed.

(** C4 (counterexample).  With the server's [fixedUpdateTimestep = 1000/60]
    and timescale 1, four samples of one timestep give 4 updates, but one
    sample of [4 * timestep] (the same sum, and exactly four timesteps since
    scaling by 4 is exact) gives only 3: the double subtraction
    [lag - ts] leaves a residue just below [ts]. *)
Lemma mainloop_count_depends_on_chunking :
  Clock.oneSample = [PrimFloat.mul (PrimFloat.of_uint63 (Uint63.of_Z 4)) Clock.serverTimestep] /\
  Clock.sum Clock.oneSample = Clock.sum Clock.fourSamples /\
  option_map (fun e => length (Clock.updates e))
    (Clock.run 100 (Clock.fresh Clock.serverTimestep) Clock.oneSample) = Some 3%nat /\
  option_map (fun e => length (Clock.updates e))
    (Clock.run 100 (Clock.fresh Clock.serverTimestep) Clock.fourSamples) = Some 4%nat.
Proof. vm_compute. repeat split. Qed.

(** C4 (amended).  With [fixedUpdateTimestep] set, a [_mainloop] call that
    returns has only called [_update(fixedUpdateTimestep)], some number of
    times, and leaves [_lagMs] (and [currentFrameLagMs]) not [>=] the
    timestep. *)
Theorem mainloop_residual_lag (fuel : nat) (e e' : Clock.EngineClock) (elapsed : PrimFloat.float) :
  Clock.truthy (Clock.fixedUpdateTimestep e) = true ->
  Clock.mainloop fuel e elapsed = Some e' ->
  PrimFloat.leb (Clock.fixedUpdateTimestep e') (Clock.lagMs e') = false /\
  Clock.currentFrameLagMs e' = Clock.lagMs e' /\
  Clock.fixedUpdateTimestep e' = Clock.fixedUpdateTimestep e /\
  exists k, Clock.updates e' = Clock.updates e ++ repeat (Clock.fixedUpdateTimestep e) k.
Proof.
  intros Ht. unfold Clock.mainloop. rewrite Ht.
  destruct (Clock.catch_up _ _ _ _) as [[lag ups] |] eqn:E; [| discriminate].
  intros H. injection H as <-. simpl.
  destruct (catch_up_spec _ _ _ _ _ _ E) as [Hl Hk]. auto.
Qed.

(** ** Director helper lemmas *)

Section DirectorLemmas.
Import Director.

Lemma getSceneInstance_keeps (d d1 : Director) (k : string) (i : option Inst) :
  getSceneInstance d k = (d1, i) ->
  initialized d1 = initialized d /\ deferredGoto d1 = deferredGoto d /\
  currentScene d1 = currentScene d /\ currentSceneName d1 = currentSceneName d /\
  sceneInitialized d1 = sceneInitialized d /\ trace d1 = trace d /\ scenes d1 = scenes d.
Proof.
  unfold getSceneInstance.
  destruct (getSceneDefinition (scenes d) k) as [def |];
    [| intros H; injection H as <- _; tauto].
  destruct (assoc k (sceneToInstance d)); [intros H; injection H as <- _; tauto |].
  destruct def; intros H; injection H as <- _; simpl; tauto.
Qed.

Lemma isInitialized_same (d d1 : Director) (s : Inst) :
  sceneInitialized d1 = sceneInitialized d -> isInitialized d1 s = isInitialized d s.
Proof. intros H. destruct s; simpl; [now rewrite H | reflexivity]. Qed.

Lemma initialize_current_ok (d d4 : Director) :
  initialize_current d = Ok d4 ->
  currentScene d4 = currentScene d /\ currentSceneName d4 = currentSceneName d /\
  (exists n, currentScene d = IScene n) /\
  trace d4 = trace d ++
    (if isInitialized d (currentScene d) then []
     else [mkEvent KInitialize (currentScene d) (currentScene d) (currentSceneName d)]).
Proof.
  unfold initialize_current. destruct (currentScene d) as [n | n] eqn:Hc; [| discriminate].
  destruct (isInitialized d (IScene n)).
  - intros H. injection H as <-. rewrite app_nil_r. repeat split; eauto.
  - intros H. injection H as <-. simpl. rewrite Hc. repeat split; eauto.
Qed.

Lemma activate_current_ok (d d' : Director) (data : option nat) :
  activate_current d data = Ok d' ->
  d' = emit d (KActivate data) (currentScene d).
Proof.
  unfold activate_current. destruct (currentScene d); [| discriminate].
  intros H. now injection H as <-.
Qed.

(** The successful navigation of an initialized Director, step by step. *)
Lemma swapScene_ok_trace (d d1 d' : Director) (k : string) (nx : Inst) (data : option nat) :
  initialized d = true ->
  getSceneInstance d k = (d1, Some nx) ->
  swapScene d k data = Ok d' ->
  currentScene d' = nx /\ currentSceneName d' = k /\
  trace d' = trace d ++
    (if isInitialized d (currentScene d)
     then [mkEvent KDeactivate (currentScene d) (currentScene d) (currentSceneName d)]
     else []) ++
    (if isInitialized d nx then [] else [mkEvent KInitialize nx nx k]) ++
    [mkEvent (KActivate data) nx nx k].
Proof.
  intros Hi G. unfold swapScene. rewrite Hi, G. simpl.
  destruct (getSceneInstance_keeps _ _ _ _ G) as (_ & _ & Hc & Hn & Hs & Ht & _).
  set (d2 := if isInitialized d1 (currentScene d1)
             then emit d1 KDeactivate (currentScene d1) else d1).
  assert (Hd2 : sceneInitialized d2 = sceneInitialized d /\
                trace d2 = trace d ++
                  (if isInitialized d (currentScene d)
                   then [mkEvent KDeactivate (currentScene d) (currentScene d) (currentSceneName d)]
                   else [])).
  { subst d2. rewrite (isInitialized_same d d1 _ Hs), Hc.
    destruct (isInitialized d (currentScene d)); simpl;
      [rewrite Ht, Hc, Hn | rewrite app_nil_r]; auto. }
  destruct Hd2 as [Hs2 Ht2].
  destruct (initialize_current (with_current d2 nx k)) as [d4 | d4] eqn:I; [| discriminate].
  intros A. apply activate_current_ok in A. subst d'.
  destruct (initialize_current_ok _ _ I) as (Hc4 & Hn4 & _ & Ht4).
  simpl in Hc4, Hn4, Ht4. simpl. rewrite Hc4, Hn4, Ht4, Ht2.
  rewrite (isInitialized_same d (with_current d2 nx k) nx) by (simpl; exact Hs2).
  rewrite <- !app_assoc. repeat split.
Qed.

End DirectorLemmas.

(** ** C3: ordering of a scene swap *)

(** C3 (counterexample).  Navigating from "root" to "main": the Director's
    pointers already name "main" while "main"'s [onInitialize] and
    [onActivate] run. *)
Lemma swap_sets_pointers_before_initialize :
  match Director.swapScene DirectorFixtures.atRoot "main"%string (Some 5%nat) with
  | Ok d' =>
      Director.trace d' =
        [Director.mkEvent Director.KDeactivate (Director.IScene 0) (Director.IScene 0) "root"%string;
         Director.mkEvent Director.KInitialize (Director.IScene 1) (Director.IScene 1) "main"%string;
         Director.mkEvent (Director.KActivate (Some 5%nat)) (Director.IScene 1) (Director.IScene 1) "main"%string]
  | Throw _ => False
  end.
Proof. vm_compute. reflexivity. Qed.

(** C3 (amended).  From an initialized current scene X, a navigation to a
    registered scene Y runs X's deactivation first, with the pointers still
    on X; the pointers are then set to Y, and Y's initialization (first time
    only) and activation run with the pointers already on Y. *)
Theorem swapScene_order (d d1 d' : Director.Director) (k : string) (n : nat) (data : option nat) :
  Director.initialized d = true ->
  Director.isInitialized d (Director.currentScene d) = true ->
  Director.getSceneInstance d k = (d1, Some (Director.IScene n)) ->
  Director.swapScene d k data = Ok d' ->
  Director.currentScene d' = Director.IScene n /\ Director.currentSceneName d' = k /\
  Director.trace d' = Director.trace d ++
    [Director.mkEvent Director.KDeactivate (Director.currentScene d) (Director.currentScene d)
                      (Director.currentSceneName d)] ++
    (if Director.isInitialized d (Director.IScene n) then []
     else [Director.mkEvent Director.KInitialize (Director.IScene n) (Director.IScene n) k]) ++
    [Director.mkEvent (Director.KActivate data) (Director.IScene n) (Director.IScene n) k].
Proof.
  intros Hi Hx G S.
  destruct (swapScene_ok_trace _ _ _ _ _ _ Hi G S) as (Hc & Hn & Ht).
  rewrite Hx in Ht. auto.
Qed.

(** ** C6: navigating to an unregistered name *)

(** C6 (divergence at a concrete name).  "constructor" is not a registered
    scene, but [this.scenes["constructor"]] is [Object], which
    [isSceneConstructor] accepts: [goToScene] builds [new Object()],
    deactivates the current scene, moves the pointers to the plain object and
    then fails on its missing [_initialize]. *)
Theorem goToScene_constructor_name :
  Director.assoc "constructor"%string (Director.scenes DirectorFixtures.atRoot) = None /\
  match Director.goToScene DirectorFixtures.atRoot "constructor"%string None with
  | Throw d' =>
      Director.currentSceneName d' = "constructor"%string /\
      Director.currentScene d' = Director.IPlainObject 1 /\
      map Director.ev_kind (Director.trace d') =
        [Director.KNavigation "navigationstart"%string; Director.KDeactivate]
  | Ok _ => False
  end.
Proof. vm_compute. repeat split. Qed.

(** For a name that [this.scenes] does not resolve at all (no own property,
    and none inherited from [Object.prototype] that passes
    [getSceneDefinition]), [goToScene] only logs. *)
Lemma goToScene_unresolved_name (d : Director.Director) (k : string) :
  Director.getSceneDefinition (Director.scenes d) k = None ->
  Director.goToScene d k None = Ok (Director.log d
    "Scene does not exist! Check the name, are you sure you added it?"%string).
Proof.
  intros H. unfold Director.goToScene, Director.getSceneInstance. now rewrite H.
Qed.

(** ** C7: [Scene._initialize] runs [onInitialize] once *)

(** C7.  If a call of [_initialize] completes without an exception, a second
    call (with any engine) changes nothing, and [onInitialize] has run exactly
    once more than before the first call when the scene was not initialized
    (not at all when it was). *)
Theorem scene_initialize_idempotent (U : Type) (onInit children : U -> option U)
    (engine engine' : nat) (st st1 : SceneInit U) :
  scene_initialize U onInit children engine st = Ok st1 ->
  scene_initialize U onInit children engine' st1 = Ok st1 /\
  si_isInitialized U st1 = true /\
  si_onInitializeCalls U st1 =
    (if si_isInitialized U st then si_onInitializeCalls U st else S (si_onInitializeCalls U st)).
Proof.
  unfold scene_initialize.
  destruct (si_isInitialized U st) eqn:Hi.
  - intros H. injection H as <-. rewrite Hi. auto.
  - destruct (onInit (si_user U st)) as [u1 |]; [| discriminate].
    destruct (children u1) as [u2 |]; [| discriminate].
    intros H. injection H as <-. simpl. auto.
Qed.

(** ** C8: removing the active scene *)

(** C8 (divergence at a concrete director).  "main" is registered as a
    constructor and its instance is current: removing it by name or by
    constructor throws, but removing it by its instance returns normally,
    because the loop compares the instance with the registered constructor. *)
Theorem remove_active_instance_of_constructor :
  Director.currentScene DirectorFixtures.atMain = Director.IScene 1 /\
  Director.remove DirectorFixtures.atMain (Director.RScene 1) = Ok DirectorFixtures.atMain /\
  Director.remove DirectorFixtures.atMain (Director.RName "main"%string) = Throw DirectorFixtures.atMain /\
  Director.remove DirectorFixtures.atMain (Director.RCtor 7) = Throw DirectorFixtures.atMain.
Proof. vm_compute. repeat split. Qed.

(** ** C10: navigation requested before the Director is initialized *)



(** ** Witnesses: the theorems above applied at concrete inputs *)

Lemma snapshot_is_taken_before_systems_witness :
  sc_isInitialized Fixtures.spawnScene = true /\
  exists st', scene_update (fun _ t => t) (fun _ => collision_pass) Fixtures.spawnScene 16 = Some st' /\
    sc_broadcasts st' =
      sc_broadcasts Fixtures.spawnScene ++ [snapshot_of (entities (sc_world Fixtures.spawnScene))].
Proof.
  split; [reflexivity |].
  destruct (scene_update (fun _ t => t) (fun _ => collision_pass) Fixtures.spawnScene 16)
    as [st' |] eqn:E; [| vm_compute in E; discriminate].
  exists st'. split; [reflexivity |].
  exact (proj1 (snapshot_is_taken_before_systems _ _ Fixtures.spawnScene st' 16 eq_refl E)).
Defined.

Lemma swapScene_order_witness :
  exists d1 d', Director.getSceneInstance DirectorFixtures.atRoot "main"%string
                = (d1, Some (Director.IScene 1)) /\
    Director.swapScene DirectorFixtures.atRoot "main"%string (Some 5%nat) = Ok d' /\
    Director.currentSceneName d' = "main"%string.
Proof.
  destruct (Director.getSceneInstance DirectorFixtures.atRoot "main"%string) as [d1 o] eqn:G.
  assert (Ho : o = Some (Director.IScene 1)) by (vm_compute in G; injection G as _ <-; reflexivity).
  subst o.
  destruct (Director.swapScene DirectorFixtures.atRoot "main"%string (Some 5%nat)) as [d' | d'] eqn:S;
    [| vm_compute in S; discriminate].
  exists d1, d'. split; [reflexivity |]. split; [reflexivity |].
  exact (proj1 (proj2 (swapScene_order DirectorFixtures.atRoot d1 d' _ 1 _ eq_refl eq_refl G S))).
Defined.

Lemma mainloop_residual_lag_witness :
  exists e', Clock.mainloop 100 (Clock.fresh Clock.serverTimestep)
               (PrimFloat.mul (PrimFloat.of_uint63 (Uint63.of_Z 4)) Clock.serverTimestep) = Some e' /\
    PrimFloat.leb (Clock.fixedUpdateTimestep e') (Clock.lagMs e') = false.
Proof.
  destruct (Clock.mainloop 100 (Clock.fresh Clock.serverTimestep)
               (PrimFloat.mul (PrimFloat.of_uint63 (Uint63.of_Z 4)) Clock.serverTimestep))
    as [e' |] eqn:E; [| vm_compute in E; discriminate].
  exists e'. split; [reflexivity |].
  exact (proj1 (mainloop_residual_lag 100 (Clock.fresh Clock.serverTimestep) e' _ eq_refl E)).
Defined.

Definition freshSceneInit : SceneInit unit := mkSceneInit unit false None tt 0 [] [].

Lemma scene_initialize_idempotent_witness :
  exists st1, scene_initialize unit (fun u => Some u) (fun u => Some u) 1 freshSceneInit = Ok st1 /\
    scene_initialize unit (fun u => Some u) (fun u => Some u) 2 st1 = Ok st1 /\
    si_onInitializeCalls unit st1 = 1%nat.
Proof.
  destruct (scene_initialize unit (fun u => Some u) (fun u => Some u) 1 freshSceneInit)
    as [st1 | st1] eqn:E; [| vm_compute in E; discriminate].
  destruct (scene_initialize_idempotent unit (fun u => Some u) (fun u => Some u) 1 2 _ _ E)
    as (H1 & _ & H3).
  exists st1. split; [reflexivity |]. split; [exact H1 | exact H3].
Defined.

Lemma unsubscribeUser_players_witness :
  exists w', room_lookup (unsubscribeUser [("r"%string, Fixtures.blockedRoom)] "r" "zed") "r"
             = Some w' /\
    players w' = removelast (players Fixtures.blockedRoom).
Proof.
  destruct (unsubscribeUser_players [("r"%string, Fixtures.blockedRoom)] "r" "zed"
              Fixtures.blockedRoom eq_refl) as [w' [H1 H2]].
  exists w'. split; [exact H1 |]. rewrite H2. reflexivity.
Defined.


(* ================================================================== *)
(** * Further properties of the code *)

(** ** The movement pass without collisions *)

Definition without_position (a : Actor) : Actor := set_position a (0, 0).

Lemma set_position_twice (a : Actor) (p q : Z * Z) :
  set_position (set_position a p) q = set_position a q.
Proof. destruct a; reflexivity. Qed.

Lemma set_position_same (a : Actor) : set_position a (position a) = a.
Proof. destruct a; reflexivity. Qed.

Lemma direction_step_shape (d : string) (s : Side.Side) (dx dy : Z) (f : Flow) (a : Actor) :
  (match f with Next x | Return x => x = set_position a (position x) end) ->
  (match direction_step d s dx dy f with Next x | Return x => x = set_position a (position x) end).
Proof.
  destruct f as [x | x]; simpl; [| tauto]. intros Hx.
  destruct (includes d (directions x)), (blocked x s); simpl; auto.
  destruct (position x) as [px py]. rewrite Hx at 1. rewrite set_position_twice. reflexivity.
Qed.

Lemma move_player_shape (a : Actor) :
  match move_player a with Next x | Return x => x = set_position a (position x) end.
Proof.
  unfold move_player. destruct (0 <? _)%Z; [| simpl; symmetry; apply set_position_same].
  repeat apply direction_step_shape. simpl. symmetry. apply set_position_same.
Qed.

Lemma replace_entity_shape (id : string) (a a' : Actor) (es : list Actor) :
  find_entity id es = Some a -> a' = set_position a (position a') ->
  map without_position (replace_entity a' es) = map without_position es.
Proof.
  intros Hf Ha. assert (Hu : uuid a' = uuid a) by (rewrite Ha; destruct a; reflexivity).
  assert (Hw : without_position a' = without_position a)
    by (rewrite Ha; unfold without_position; now rewrite set_position_twice).
  revert Hf. induction es as [| e es IH]; simpl; intros Hf; [discriminate |].
  destruct (String.eqb (uuid e) id) eqn:He.
  - injection Hf as <-. rewrite Hu, String.eqb_refl. simpl. now rewrite Hw.
  - apply String.eqb_neq in He.
    destruct (String.eqb (uuid e) (uuid a')) eqn:He'.
    + apply String.eqb_eq in He'. exfalso.
      pose proof (find_entity_uuid _ _ _ Hf). congruence.
    + simpl. f_equal. now apply IH.
Qed.

Lemma update_players_shape (ps : list ServerTransmitEntity) (es es' : list Actor) :
  update_players ps es = Some es' -> map without_position es' = map without_position es.
Proof.
  revert es. induction ps as [| p ps IH]; simpl; intros es H.
  - now injection H as <-.
  - destruct (find_entity (ste_id p) es) as [a |] eqn:Hf; [| discriminate].
    pose proof (move_player_shape a) as Hk.
    destruct (move_player a) as [a' | a'].
    + rewrite (IH _ H). now apply (replace_entity_shape (ste_id p) a).
    + injection H as <-. now apply (replace_entity_shape (ste_id p) a).
Qed.

(** X2.  [updateEntities] writes nothing but the [position] field: the
    players list is unchanged, and every entity keeps its place in the list
    and all its other fields, in particular [pos] (which only
    [onPreUpdate] and [onCollisionStart] set), its held directions and its
    collision data. *)
Theorem updateEntities_writes_only_position (w w' : WorldState) :
  updateEntities w = Some w' ->
  players w' = players w /\ killed w' = killed w /\
  map without_position (entities w') = map without_position (entities w).
Proof.
  unfold updateEntities.
  destruct (update_players (players w) (entities w)) as [es |] eqn:E; [| discriminate].
  intros H. injection H as <-. simpl. split; [reflexivity | split; [reflexivity |]].
  exact (update_players_shape _ _ _ E).
Qed.

Lemma move_player_free (a : Actor) :
  isColliding (collisionData a) = false -> move_player a = Next (free_move a).
Proof.
  intros H. destruct a as [nm id ps [x y] w h ct ds [ic cdir oth]]. simpl in H. subst ic.
  unfold move_player, free_move. simpl.
  destruct (0 <? Z.of_nat (length ds))%Z eqn:G.
  - unfold direction_step, blocked, set_position.
    destruct (includes "up" ds) eqn:U, (includes "down" ds) eqn:D,
             (includes "left" ds) eqn:L, (includes "right" ds) eqn:R;
      do 5 (cbn -[includes]; rewrite ?U, ?D, ?L, ?R); f_equal; f_equal; f_equal; unfold playerSpeed; lia.
  - destruct ds as [| d ds]; [| simpl in G; discriminate].
    simpl. unfold set_position. simpl. f_equal; f_equal; f_equal; lia.
Qed.

Lemma free_move_uuid (a : Actor) : uuid (free_move a) = uuid a.
Proof. destruct a as [nm id ps [x y] w h ct ds cd]. reflexivity. Qed.

Lemma free_move_collisionData (a : Actor) : collisionData (free_move a) = collisionData a.
Proof. destruct a as [nm id ps [x y] w h ct ds cd]. reflexivity. Qed.

Lemma find_entity_In (id : string) (es : list Actor) (a : Actor) :
  find_entity id es = Some a -> In a es.
Proof.
  induction es as [| e es IH]; simpl; [discriminate |].
  destruct (String.eqb (uuid e) id); [intros H; injection H as <-; auto | auto].
Qed.

Lemma find_entity_exists (id : string) (es : list Actor) :
  In id (map uuid es) -> exists a, find_entity id es = Some a.
Proof.
  induction es as [| e es IH]; simpl; [tauto |].
  destruct (String.eqb (uuid e) id) eqn:E; [eauto |].
  intros [H | H]; [apply String.eqb_neq in E; congruence | auto].
Qed.

Lemma find_entity_unique (id : string) (es : list Actor) (a e : Actor) :
  NoDup (map uuid es) -> find_entity id es = Some a -> In e es -> uuid e = id -> e = a.
Proof.
  induction es as [| x es IH]; simpl; [discriminate |].
  intros Hd. inversion Hd as [| ? ? Hx Hd']; subst.
  destruct (String.eqb (uuid x) id) eqn:E.
  - apply String.eqb_eq in E. intros H; injection H as <-. intros [<- | Hin] Hu; [reflexivity |].
    exfalso. apply Hx. rewrite E, <- Hu. now apply in_map.
  - apply String.eqb_neq in E. intros Hf [<- | Hin] Hu; [congruence |]. now apply IH.
Qed.

Lemma map_id_on_absent (k : string) (a' : Actor) (es : list Actor) :
  ~ In k (map uuid es) ->
  map (fun e => if String.eqb (uuid e) k then a' else e) es = es.
Proof.
  induction es as [| e es IH]; simpl; [reflexivity |]. intros H.
  destruct (String.eqb (uuid e) k) eqn:E; [apply String.eqb_eq in E; tauto |].
  f_equal. apply IH. tauto.
Qed.

Lemma replace_entity_map (a' : Actor) (es : list Actor) :
  NoDup (map uuid es) ->
  replace_entity a' es = map (fun e => if String.eqb (uuid e) (uuid a') then a' else e) es.
Proof.
  induction es as [| e es IH]; simpl; [reflexivity |]. intros Hd.
  inversion Hd as [| ? ? Hx Hd']; subst.
  destruct (String.eqb (uuid e) (uuid a')) eqn:E.
  - apply String.eqb_eq in E. f_equal. symmetry. apply map_id_on_absent. now rewrite <- E.
  - f_equal. now apply IH.
Qed.

Lemma existsb_eqb_absent (x : string) (l : list string) :
  ~ In x l -> existsb (String.eqb x) l = false.
Proof.
  intros H. apply Bool.not_true_iff_false. intros E.
  apply existsb_exists in E as [y [Hy Ey]]. apply String.eqb_eq in Ey. subst. tauto.
Qed.

(** The loop of [updateEntities] when nobody is colliding. *)
Lemma update_players_free (ps : list ServerTransmitEntity) (es : list Actor) :
  (forall e, In e es -> isColliding (collisionData e) = false) ->
  NoDup (map uuid es) ->
  NoDup (map ste_id ps) ->
  (forall p, In p ps -> In (ste_id p) (map uuid es)) ->
  update_players ps es =
    Some (map (fun e => if existsb (String.eqb (uuid e)) (map ste_id ps) then free_move e else e) es).
Proof.
  revert es. induction ps as [| p ps IH]; intros es Hc Hd Hdp Hin; simpl.
  - f_equal. symmetry. apply map_id.
  - inversion Hdp as [| ? ? Hpx Hdp']; subst.
    destruct (find_entity_exists (ste_id p) es (Hin p (or_introl eq_refl))) as [a Ha].
    rewrite Ha.
    rewrite (move_player_free a (Hc a (find_entity_In _ _ _ Ha))).
    pose proof (find_entity_uuid _ _ _ Ha) as Hua.
    set (g := fun e => if String.eqb (uuid e) (ste_id p) then free_move e else e).
    assert (Hr : replace_entity (free_move a) es = map g es).
    { rewrite replace_entity_map by exact Hd. apply map_ext_in. intros e He. subst g. simpl.
      rewrite free_move_uuid, Hua.
      destruct (String.eqb (uuid e) (ste_id p)) eqn:E; [| reflexivity].
      apply String.eqb_eq in E. now rewrite (find_entity_unique _ _ _ _ Hd Ha He E). }
    assert (Hg_uuid : map uuid (map g es) = map uuid es).
    { rewrite map_map. apply map_ext. intros e. subst g. simpl.
      destruct (String.eqb _ _); [apply free_move_uuid | reflexivity]. }
    rewrite Hr, IH.
    + f_equal. rewrite map_map. apply map_ext. intros e. subst g. simpl.
      destruct (String.eqb (uuid e) (ste_id p)) eqn:E; simpl.
      * rewrite free_move_uuid. apply String.eqb_eq in E. rewrite E.
        now rewrite existsb_eqb_absent.
      * reflexivity.
    + intros e He. apply in_map_iff in He as [e0 [<- He0]]. subst g. simpl.
      destruct (String.eqb _ _); [rewrite free_move_collisionData |]; apply Hc; exact He0.
    + now rewrite Hg_uuid.
    + exact Hdp'.
    + intros q Hq. rewrite Hg_uuid. apply Hin. now right.
Qed.

(** X1.  When no entity of the room is colliding, the players' ids are
    distinct and each names exactly one entity, [updateEntities] never
    returns early: every listed player's entity moves by [playerSpeed] along
    each held direction ("up" and "down", "left" and "right" cancelling), and
    every other entity is left as it is. *)
Theorem updateEntities_free_movement (w : WorldState) :
  (forall e, In e (entities w) -> isColliding (collisionData e) = false) ->
  NoDup (map uuid (entities w)) ->
  NoDup (map ste_id (players w)) ->
  (forall p, In p (players w) -> In (ste_id p) (map uuid (entities w))) ->
  updateEntities w =
    Some (mkWorldState (players w)
            (map (fun e => if existsb (String.eqb (uuid e)) (map ste_id (players w))
                           then free_move e else e) (entities w))
            (killed w)).
Proof.
  intros Hc Hd Hdp Hin. unfold updateEntities.
  now rewrite (update_players_free _ _ Hc Hd Hdp Hin).
Qed.

(** ** Collision hooks of [ClientActor] *)

(** X7.  When the actor's [pos] and [position] agree (as they do after its
    [onPreUpdate]), [onCollisionStart] records the collision and places the
    actor flush against the other actor on the collision axis: below its
    bottom edge for [Top], above its top edge for [Bottom], right of its
    right edge for [Left], left of its left edge for [Right]; the other
    coordinate is kept, and [pos] and [position] still agree.  [Side.None]
    moves nothing. *)
Theorem onCollisionStart_places_flush (self o : Actor) (s : Side.Side) :
  pos self = position self ->
  collisionData (onCollisionStart self o s) = mkCollisionData true s (Some (uuid o)) /\
  pos (onCollisionStart self o s) = position (onCollisionStart self o s) /\
  pos (onCollisionStart self o s) =
    match s with
    | Side.None => pos self
    | Side.Top => (fst (pos self), snd (pos o) + height o)
    | Side.Bottom => (fst (pos self), snd (pos o) - height self)
    | Side.Left => (fst (pos o) + width o, snd (pos self))
    | Side.Right => (fst (pos o) - width self, snd (pos self))
    end.
Proof.
  destruct self as [nm id [sx sy] [px py] w h ct ds cd].
  destruct o as [onm oid [ox oy] [opx opy] ow oh oct ods ocd]. simpl.
  intros Hp. injection Hp as -> ->.
  destruct s; simpl; repeat split; f_equal; lia.
Qed.

(** X8.  [onCollisionEnd] after [onCollisionStart] resets the collision data
    to its initial value but keeps the position correction; the actor is then
    blocked on no side, so its next movement step applies every held
    direction. *)
Theorem onCollisionEnd_unblocks (a o : Actor) (s : Side.Side) :
  collisionData (onCollisionEnd (onCollisionStart a o s)) = initialCollisionData /\
  pos (onCollisionEnd (onCollisionStart a o s)) = pos (onCollisionStart a o s) /\
  position (onCollisionEnd (onCollisionStart a o s)) = position (onCollisionStart a o s) /\
  (forall s', blocked (onCollisionEnd (onCollisionStart a o s)) s' = false) /\
  move_player (onCollisionEnd (onCollisionStart a o s)) =
    Next (free_move (onCollisionEnd (onCollisionStart a o s))).
Proof.
  split; [reflexivity |]. split; [reflexivity |]. split; [reflexivity |].
  split; [intros s'; reflexivity |]. now apply move_player_free.
Qed.

(** ** Timers of a [Scene] *)

Lemma removeTimer_ids_incl (u : Timer) (ts : list Timer) (i : nat) :
  In i (map timer_id (removeTimer u ts)) -> In i (map timer_id ts).
Proof.
  induction ts as [| t ts IH]; simpl; [tauto |].
  destruct (Nat.eqb (timer_id t) (timer_id u)); simpl; [tauto |]. intuition.
Qed.

Lemma removeTimer_nodup (u : Timer) (ts : list Timer) :
  NoDup (map timer_id ts) -> NoDup (map timer_id (removeTimer u ts)).
Proof.
  induction ts as [| t ts IH]; simpl; [auto |]. intros Hd.
  inversion Hd as [| ? ? Hx Hd']; subst.
  destruct (Nat.eqb (timer_id t) (timer_id u)); [exact Hd' |].
  simpl. constructor; [| now apply IH].
  intros H. apply Hx. exact (removeTimer_ids_incl _ _ _ H).
Qed.

Lemma removeTimer_removes (t : Timer) (ts : list Timer) :
  NoDup (map timer_id ts) -> ~ In (timer_id t) (map timer_id (removeTimer t ts)).
Proof.
  induction ts as [| x ts IH]; simpl; [auto |]. intros Hd.
  inversion Hd as [| ? ? Hx Hd']; subst.
  destruct (Nat.eqb (timer_id x) (timer_id t)) eqn:E.
  - apply Nat.eqb_eq in E. now rewrite <- E.
  - apply Nat.eqb_neq in E. simpl. intros [H | H]; [congruence | now apply (IH Hd')].
Qed.

Lemma cancel_loop_removes (t : Timer) (q ts : list Timer) :
  NoDup (map timer_id ts) ->
  (In (timer_id t) (map timer_id q) \/ ~ In (timer_id t) (map timer_id ts)) ->
  ~ In (timer_id t) (map timer_id (fold_left (fun ts u => removeTimer u ts) q ts)).
Proof.
  revert ts. induction q as [| u q IH]; simpl; intros ts Hd H; [tauto |].
  apply IH; [now apply removeTimer_nodup |].
  destruct H as [[Hu | Hq] | Hn]; [| now left |].
  - right.
    replace (removeTimer u ts) with (removeTimer t ts)
      by (clear -Hu; induction ts as [| x ts IH]; simpl; [reflexivity |];
          rewrite Hu, IH; reflexivity).
    now apply removeTimer_removes.
  - right. intros Hi. apply Hn. exact (removeTimer_ids_incl _ _ _ Hi).
Qed.

(** X9.  [addTimer] followed by [removeTimer] of the same timer gives back
    the timer list when the timer was not in it; [removeTimer] of a timer
    that is not in the list leaves it as it is. *)
Theorem removeTimer_addTimer (ts : list Timer) (t : Timer) :
  ~ In (timer_id t) (map timer_id ts) ->
  removeTimer t (addTimer ts t) = ts /\ removeTimer t ts = ts.
Proof.
  unfold addTimer. induction ts as [| x ts IH]; simpl; intros H.
  - now rewrite Nat.eqb_refl.
  - destruct (Nat.eqb (timer_id x) (timer_id t)) eqn:E;
      [apply Nat.eqb_eq in E; tauto |].
    destruct IH as [H1 H2]; [tauto |]. now rewrite H1, H2.
Qed.

(** X10.  A timer passed to [cancelTimer] stays in the scene's timers until
    the next [update] of the initialized scene, which removes it before
    updating the timers and empties the cancel queue, provided timer
    identities are distinct and [timer.update] keeps a timer's identity. *)
Theorem cancelTimer_removed_by_update
    (timer_update : Z -> Timer -> Timer) (systems_update : Z -> list Actor -> list Actor)
    (st st' : SceneState) (t : Timer) (elapsed : Z) :
  (forall e x, timer_id (timer_update e x) = timer_id x) ->
  sc_isInitialized st = true ->
  NoDup (map timer_id (sc_timers st)) ->
  scene_update timer_update systems_update (cancelTimer st t) elapsed = Some st' ->
  sc_timers (cancelTimer st t) = sc_timers st /\
  ~ In (timer_id t) (map timer_id (sc_timers st')) /\
  sc_cancelQueue st' = [].
Proof.
  intros Hid Hi Hd. unfold scene_update. simpl. rewrite Hi. simpl.
  destruct (mainScene_onPreUpdate (sc_world st)) as [[w1 snap] |]; [| discriminate].
  intros H. injection H as <-. simpl. split; [reflexivity | split; [| reflexivity]].
  rewrite map_map. rewrite (map_ext _ timer_id (Hid elapsed)).
  apply cancel_loop_removes; [exact Hd |]. left.
  rewrite map_app. apply in_or_app. right. now left.
Qed.

(** ** [Scene._initialize] when a hook throws *)

(** X11.  If [_initialize] throws (from the user [onInitialize] or from a
    child's initialization), the scene stays uninitialized and the error is
    logged; the next [_initialize] call runs [onInitialize] again, even when
    the first call's [onInitialize] had completed. *)
Theorem scene_initialize_throw_retries (U : Type) (onInit children : U -> option U)
    (engine engine' : nat) (st st1 : SceneInit U) :
  scene_initialize U onInit children engine st = Throw st1 ->
  si_isInitialized U st1 = false /\
  si_onInitializeCalls U st1 = S (si_onInitializeCalls U st) /\
  si_logs U st1 = si_logs U st ++ ["Error during scene initialization"%string] /\
  match scene_initialize U onInit children engine' st1 with
  | Ok st2 | Throw st2 => si_onInitializeCalls U st2 = S (si_onInitializeCalls U st1)
  end.
Proof.
  unfold scene_initialize at 1.
  destruct (si_isInitialized U st); [discriminate |].
  destruct (onInit (si_user U st)) as [u1 |].
  - destruct (children u1) as [u2 |]; [discriminate |].
    intros H. injection H as <-. simpl. repeat split.
    unfold scene_initialize. simpl.
    destruct (onInit u1); [destruct (children _) |]; reflexivity.
  - intros H. injection H as <-. simpl. repeat split.
    unfold scene_initialize. simpl.
    destruct (onInit (si_user U st)); [destruct (children _) |]; reflexivity.
Qed.

(** ** More of the [Director] *)

Section DirectorMore.
Import Director.

Lemma assoc_set_same {V : Type} (k : string) (v : V) (l : list (string * V)) :
  assoc k (assoc_set k v l) = Some v.
Proof.
  induction l as [| [k' v'] l IH]; simpl; [now rewrite String.eqb_refl |].
  destruct (String.eqb k k') eqn:E; simpl; rewrite E; [reflexivity | exact IH].
Qed.

Lemma assoc_delete_set_absent {V : Type} (k : string) (v : V) (l : list (string * V)) :
  assoc k l = None -> assoc_delete k (assoc_set k v l) = l.
Proof.
  unfold assoc_delete. induction l as [| [k' v'] l IH]; simpl; intros H.
  - now rewrite String.eqb_refl.
  - destruct (String.eqb k k') eqn:E; [discriminate |]. simpl. rewrite E. simpl.
    f_equal. now apply IH.
Qed.

Lemma getSceneDefinition_set (l : list (string * SceneDef)) (k : string) (s : SceneDef) :
  getSceneDefinition (assoc_set k s l) k = Some (of_sceneOrCtor (sceneOf s)).
Proof.
  unfold getSceneDefinition, js_get. rewrite assoc_set_same. destruct s; reflexivity.
Qed.

Lemma getSceneInstance_stores (d d1 : Director) (k : string) (i : Inst) :
  getSceneInstance d k = (d1, Some i) -> assoc k (sceneToInstance d1) = Some i.
Proof.
  unfold getSceneInstance.
  destruct (getSceneDefinition (scenes d) k) as [def |]; [| discriminate].
  destruct (assoc k (sceneToInstance d)) as [j |] eqn:A;
    [intros H; injection H as <- <-; exact A |].
  destruct def; intros H; injection H as <- <-; simpl; apply assoc_set_same.
Qed.

Lemma getSceneInstance_some (d : Director) (k : string) (def : Definition_) :
  getSceneDefinition (scenes d) k = Some def -> exists d1 i, getSceneInstance d k = (d1, Some i).
Proof.
  intros H. unfold getSceneInstance. rewrite H.
  destruct (assoc k (sceneToInstance d)); [eauto |]. destruct def; eauto.
Qed.

Lemma swapScene_initialized (d : Director) (k : string) (data : option nat) :
  initialized d = true ->
  match swapScene d k data with Ok d' | Throw d' => initialized d' = true end.
Proof.
  intros Hi. unfold swapScene. rewrite Hi. simpl.
  destruct (getSceneInstance d k) as [d1 [nx |]] eqn:G;
    destruct (getSceneInstance_keeps _ _ _ _ G) as (Hi1 & _);
    [| simpl; congruence].
  set (d2 := if isInitialized d1 (currentScene d1)
             then emit d1 KDeactivate (currentScene d1) else d1).
  assert (H2 : initialized d2 = true)
    by (subst d2; destruct (isInitialized _ _); simpl; congruence).
  unfold initialize_current, activate_current. simpl.
  destruct nx as [n | n]; simpl; [| exact H2].
  destruct (existsb (Nat.eqb n) (sceneInitialized d2)); simpl; exact H2.
Qed.

(** X12.  [add(name, scene)] registers the scene under [name] (what
    [getSceneDefinition(name)] then returns) without touching the cached
    instances, and logs the overwrite warning exactly when [this.scenes[name]]
    was truthy before, which is also the case for a name inherited from
    [Object.prototype] such as "constructor" or "toString". *)
Theorem add_registers (d : Director) (k : string) (s : SceneDef) :
  k <> "__proto__"%string ->
  getSceneDefinition (scenes (add d k s)) k = Some (of_sceneOrCtor (sceneOf s)) /\
  sceneToInstance (add d k s) = sceneToInstance d /\
  logs (add d k s) =
    logs d ++ match js_get (scenes d) k with
              | PUndefined => []
              | _ => ["Scene already exists overwriting"%string]
              end.
Proof.
  intros _. unfold add.
  destruct (js_get (scenes d) k); simpl;
    (split; [apply getSceneDefinition_set | split; [reflexivity |]]);
    [reflexivity | reflexivity | reflexivity | reflexivity | symmetry; apply app_nil_r].
Qed.

(** X13.  Re-registering a name whose scene was already instantiated does not
    reset the cache: [getSceneInstance(name)] keeps returning the old
    instance after [add(name, other)]. *)
Theorem add_keeps_cached_instance (d d1 : Director) (k : string) (i : Inst) (s : SceneDef) :
  getSceneInstance d k = (d1, Some i) ->
  getSceneInstance (add d1 k s) k = (add d1 k s, Some i).
Proof.
  intros G. pose proof (getSceneInstance_stores _ _ _ _ G) as A.
  unfold getSceneInstance at 1.
  replace (scenes (add d1 k s)) with
    (assoc_set k s (scenes d1)) by (unfold add; destruct (js_get _ _); reflexivity).
  rewrite getSceneDefinition_set.
  replace (sceneToInstance (add d1 k s)) with (sceneToInstance d1)
    by (unfold add; destruct (js_get _ _); reflexivity).
  now rewrite A.
Qed.

(** X14.  [getSceneInstance] caches what it returns: a second call for the
    same name returns the same instance and changes nothing, so a scene
    constructor runs at most once per name; the first call builds at most one
    object and does not change the registry. *)
Theorem getSceneInstance_idempotent (d d1 : Director) (k : string) (i : Inst) :
  getSceneInstance d k = (d1, Some i) ->
  getSceneInstance d1 k = (d1, Some i) /\
  (nextId d1 = nextId d \/ nextId d1 = S (nextId d)) /\
  scenes d1 = scenes d.
Proof.
  intros G. pose proof (getSceneInstance_stores _ _ _ _ G) as A.
  destruct (getSceneInstance_keeps _ _ _ _ G) as (_ & _ & _ & _ & _ & _ & Hs).
  split.
  - unfold getSceneInstance at 1. rewrite Hs.
    destruct (getSceneDefinition (scenes d) k) eqn:D.
    + now rewrite A.
    + unfold getSceneInstance in G. rewrite D in G. discriminate.
  - split; [| exact Hs]. revert G. unfold getSceneInstance.
    destruct (getSceneDefinition (scenes d) k) as [def |]; [| discriminate].
    destruct (assoc k (sceneToInstance d)); [intros H; injection H as <- _; auto |].
    destruct def; intros H; injection H as <- _; simpl; auto.
Qed.

(** X15.  Adding a scene under a fresh name and removing it by that name
    (while another scene is current) gives back the registry and the log,
    and the name no longer resolves to an instance. *)
Theorem remove_after_add_restores (d : Director) (k : string) (s : SceneDef) :
  js_get (scenes d) k = PUndefined ->
  k <> currentSceneName d ->
  exists d', remove (add d k s) (RName k) = Ok d' /\
    scenes d' = scenes d /\ logs d' = logs d /\ snd (getSceneInstance d' k) = None.
Proof.
  intros J Hk. unfold add. rewrite J. simpl.
  assert (A : assoc k (scenes d) = None)
    by (unfold js_get in J; destruct (assoc k (scenes d)); [discriminate | reflexivity]).
  apply String.eqb_neq in Hk. rewrite Hk.
  eexists. split; [reflexivity |]. simpl.
  rewrite (assoc_delete_set_absent _ _ _ A). split; [reflexivity | split; [reflexivity |]].
  unfold getSceneInstance, getSceneDefinition. cbn [scenes]. replace (scenes (delete_key (with_scenes d (assoc_set k s (scenes d))) k)) with (scenes d) by (unfold delete_key; simpl; symmetry; now apply assoc_delete_set_absent). now rewrite J.
Qed.

(** X16.  [goToScene] on a Director that is not yet initialized, to a name
    that resolves, fires "navigationstart", "navigation" and
    "navigationend" although no lifecycle hook runs: the current scene and
    its name stay, the destination is only recorded as the deferred
    navigation, and its instance is built and cached already. *)
Theorem goToScene_before_initialize (d : Director) (k : string) (data : option nat)
    (def : Definition_) :
  initialized d = false ->
  getSceneDefinition (scenes d) k = Some def ->
  exists d', goToScene d k data = Ok d' /\
    currentScene d' = currentScene d /\ currentSceneName d' = currentSceneName d /\
    deferredGoto d' = Some k /\ sceneInitialized d' = sceneInitialized d /\
    map ev_kind (trace d') =
      map ev_kind (trace d) ++
        [KNavigation "navigationstart"; KNavigation "navigation"; KNavigation "navigationend"] /\
    (exists i, assoc k (sceneToInstance d') = Some i).
Proof.
  intros Hi D. destruct (getSceneInstance_some _ _ _ D) as (d1 & i & G).
  destruct (getSceneInstance_keeps _ _ _ _ G) as (Hi1 & _ & Hc & Hn & Hs & Ht & _).
  pose proof (getSceneInstance_stores _ _ _ _ G) as A.
  unfold goToScene. rewrite G.
  unfold swapScene. simpl. rewrite Hi1, Hi. simpl.
  eexists. split; [reflexivity |]. simpl.
  rewrite Hc, Hn, Hs, Ht. repeat split.
  - rewrite !map_app. simpl. rewrite <- !app_assoc. reflexivity.
  - exists i. exact A.
Qed.

(** X17.  [Director.onInitialize] navigates at most once: whatever its first
    call does (even when the navigation throws), the Director is then
    initialized and a later call does nothing. *)
Theorem onInitialize_runs_once (d : Director) :
  match onInitialize d with
  | Ok d1 | Throw d1 => initialized d1 = true /\ onInitialize d1 = Ok d1
  end.
Proof.
  unfold onInitialize at 1. destruct (initialized d) eqn:Hi.
  - split; [exact Hi | unfold onInitialize; now rewrite Hi].
  - simpl.
    destruct (deferredGoto d) as [k |];
      [destruct (String.eqb k "");
         [pose proof (swapScene_initialized (with_initialized d true) "root" None eq_refl) as H
         | pose proof (swapScene_initialized
                         (with_deferred (with_initialized d true) None) k None eq_refl) as H]
      | pose proof (swapScene_initialized (with_initialized d true) "root" None eq_refl) as H];
      simpl in H |- *;
      match goal with
      | |- match ?c with Ok _ | Throw _ => _ end => destruct c as [d1 | d1]
      end;
      (split; [exact H | unfold onInitialize; now rewrite H]).
Qed.

(** X18.  [configureStart(name)] before initialization defers the
    navigation but sets [currentSceneName] to [name] while [currentScene]
    stays the old scene, so the two disagree; in particular the old current
    scene can then be removed by its name although it is still current. *)
Theorem configureStart_before_initialize (d : Director) (k : string) :
  initialized d = false ->
  k <> currentSceneName d ->
  fst (configureStart d k) = k /\
  currentSceneName (snd (configureStart d k)) = k /\
  currentScene (snd (configureStart d k)) = currentScene d /\
  deferredGoto (snd (configureStart d k)) = Some k /\
  remove (snd (configureStart d k)) (RName (currentSceneName d)) =
    Ok (delete_key (snd (configureStart d k)) (currentSceneName d)).
Proof.
  intros Hi Hk. unfold configureStart, swapScene. rewrite Hi. simpl.
  repeat split. unfold remove. simpl.
  destruct (String.eqb (currentSceneName d) k) eqn:E; [| reflexivity].
  apply String.eqb_eq in E. congruence.
Qed.


(** X20.  Navigating to the scene that is already current (and initialized)
    deactivates it and activates it again with the new data, without
    initializing it a second time. *)
Theorem swapScene_to_current (d d1 d' : Director) (k : string) (data : option nat) :
  initialized d = true ->
  isInitialized d (currentScene d) = true ->
  getSceneInstance d k = (d1, Some (currentScene d)) ->
  swapScene d k data = Ok d' ->
  currentScene d' = currentScene d /\ currentSceneName d' = k /\
  trace d' = trace d ++
    [mkEvent KDeactivate (currentScene d) (currentScene d) (currentSceneName d);
     mkEvent (KActivate data) (currentScene d) (currentScene d) k].
Proof.
  intros Hi Hx G S.
  destruct (swapScene_ok_trace _ _ _ _ _ _ Hi G S) as (Hc & Hn & Ht).
  rewrite Hx in Ht. simpl in Ht. auto.
Qed.
End DirectorMore.

(** ** The engine clock with a [NaN] operand *)

Section ClockNaN.
Import Clock PrimFloat.
Local Open Scope float_scope.

Lemma Prim2SF_of_nan (x : float) : is_nan x = true -> FloatOps.Prim2SF x = SpecFloat.S754_nan.
Proof. intros H. unfold FloatOps.Prim2SF. now rewrite H. Qed.

Lemma is_nan_of_Prim2SF (x : float) : FloatOps.Prim2SF x = SpecFloat.S754_nan -> is_nan x = true.
Proof. intros H. unfold is_nan. now rewrite FloatAxioms.eqb_spec, H. Qed.

Lemma nan_add_r (x y : float) : is_nan y = true -> is_nan (x + y) = true.
Proof.
  intros H. apply is_nan_of_Prim2SF. rewrite FloatAxioms.add_spec, (Prim2SF_of_nan _ H).
  unfold FloatAxioms.SF64add, SpecFloat.SFadd. now destruct (FloatOps.Prim2SF x).
Qed.

Lemma nan_mul_r (x y : float) : is_nan y = true -> is_nan (x * y) = true.
Proof.
  intros H. apply is_nan_of_Prim2SF. rewrite FloatAxioms.mul_spec, (Prim2SF_of_nan _ H).
  unfold FloatAxioms.SF64mul, SpecFloat.SFmul. now destruct (FloatOps.Prim2SF x).
Qed.

Lemma leb_nan_r (x y : float) : is_nan y = true -> (x <=? y) = false.
Proof.
  intros H. rewrite FloatAxioms.leb_spec, (Prim2SF_of_nan _ H).
  unfold SpecFloat.SFleb, SpecFloat.SFcompare. now destruct (FloatOps.Prim2SF x).
Qed.

Lemma ltb_nan_l (x y : float) : is_nan x = true -> (x <? y) = false.
Proof.
  intros H. rewrite FloatAxioms.ltb_spec, (Prim2SF_of_nan _ H). reflexivity.
Qed.

Lemma mainloop_nan_lag (fuel : nat) (e : EngineClock) (x : float) :
  truthy (fixedUpdateTimestep e) = true ->
  is_nan (lagMs e + x * timescale e) = true ->
  exists e', mainloop (S fuel) e x = Some e' /\ updates e' = updates e /\
    is_nan (lagMs e') = true /\ fixedUpdateTimestep e' = fixedUpdateTimestep e.
Proof.
  intros Ht Hn. unfold mainloop. rewrite Ht. simpl. rewrite (leb_nan_r _ _ Hn).
  eexists. repeat split. exact Hn.
Qed.

Lemma drive_nan_lag (fuel : nat) (calls : list EngineCall) (e : EngineClock) :
  truthy (fixedUpdateTimestep e) = true -> is_nan (lagMs e) = true ->
  exists e', drive (S fuel) e calls = Some e' /\ updates e' = updates e.
Proof.
  revert e. induction calls as [| [x | v] cs IH]; intros e Ht Hn; simpl.
  - eauto.
  - assert (Hn' : is_nan (lagMs e + x * timescale e) = true).
    { apply is_nan_of_Prim2SF. rewrite FloatAxioms.add_spec, (Prim2SF_of_nan _ Hn).
      reflexivity. }
    destruct (mainloop_nan_lag fuel e x Ht Hn') as (e1 & M & U1 & N1 & T1).
    rewrite M. rewrite <- T1 in Ht. destruct (IH e1 Ht N1) as (e2 & D & U2).
    exists e2. split; [exact D | congruence].
  - unfold set_timescale. destruct (v <? 0); [now apply IH |].
    destruct (IH (mkEngineClock (fixedUpdateTimestep e) v (lagMs e) (currentFrameElapsedMs e)
                    (currentFrameLagMs e) (updates e)) Ht Hn) as (e2 & D & U2).
    eauto.
Qed.

Lemma run_variable_step (fuel : nat) (xs : list float) (e : EngineClock) :
  truthy (fixedUpdateTimestep e) = false ->
  exists e', run fuel e xs = Some e' /\
    updates e' = updates e ++ map (fun x => x * timescale e) xs /\
    lagMs e' = lagMs e /\ timescale e' = timescale e /\
    fixedUpdateTimestep e' = fixedUpdateTimestep e.
Proof.
  revert e. induction xs as [| x xs IH]; intros e Ht; simpl.
  - exists e. rewrite app_nil_r. auto.
  - unfold mainloop. rewrite Ht.
    destruct (IH (mkEngineClock (fixedUpdateTimestep e) (timescale e) (lagMs e)
                    (x * timescale e) (lagMs e) (updates e ++ [x * timescale e])) Ht)
      as (e2 & R & U & L & T & F).
    exists e2. simpl in *. rewrite <- app_assoc in U. auto.
Qed.

(** X21.  Assigning [NaN] to [engine.timescale] in fixed-step mode is
    accepted (the setter only refuses values [< 0]) and stops the simulation
    for good: after the next tick the accumulated lag is [NaN], no later
    tick calls [_update] again, whatever is assigned to the timescale
    afterwards. *)
Theorem nan_timescale_stops_updates (fuel : nat) (e : EngineClock) (v x : float)
    (calls : list EngineCall) :
  truthy (fixedUpdateTimestep e) = true ->
  is_nan v = true ->
  exists e', drive (S fuel) e (SetTimescale v :: Tick x :: calls) = Some e' /\
    updates e' = updates e.
Proof.
  intros Ht Hv. simpl. unfold set_timescale. rewrite (ltb_nan_l _ _ Hv).
  set (e0 := mkEngineClock (fixedUpdateTimestep e) v (lagMs e) (currentFrameElapsedMs e)
                           (currentFrameLagMs e) (updates e)).
  assert (Hn : is_nan (lagMs e0 + x * timescale e0) = true)
    by (apply nan_add_r, nan_mul_r; exact Hv).
  destruct (mainloop_nan_lag fuel e0 x Ht Hn) as (e1 & M & U1 & N1 & T1).
  rewrite M. assert (Ht1 : truthy (fixedUpdateTimestep e1) = true) by (rewrite T1; exact Ht). destruct (drive_nan_lag fuel calls e1 Ht1 N1) as (e2 & D & U2).
  exists e2. split; [exact D | rewrite U2, U1; reflexivity].
Qed.

(** X22.  An [Engine] built with neither [fixedUpdateTimestep] nor
    [fixedUpdateFps] gets the timestep [1000 / undefined], which is [NaN]
    and falsy, so it runs in variable-step mode: every tick calls [_update]
    once with [elapsed * 1] and the lag stays 0. *)
Theorem engine_default_variable_step (fuel : nat) (xs : list float) :
  truthy (engine_timestep None None) = false /\
  exists e', run fuel (engine_clock None None) xs = Some e' /\
    updates e' = map (fun x => x * 1) xs /\ lagMs e' = 0.
Proof.
  assert (Ht : truthy (engine_timestep None None) = false) by reflexivity.
  split; [exact Ht |].
  destruct (run_variable_step fuel xs (engine_clock None None) Ht) as (e' & R & U & L & _).
  exists e'. auto.
Qed.
End ClockNaN.

(** ** Joining a room and key messages *)

Section ServerMore.

Lemma rooms_get_lookup (rs : Rooms) (k : string) (w : WorldState) :
  room_lookup rs k = Some w -> rooms_get rs k = RWorld w.
Proof. intros H. unfold rooms_get. now rewrite H. Qed.

Lemma rooms_get_world (rs : Rooms) (k : string) (w : WorldState) :
  rooms_get rs k = RWorld w -> room_lookup rs k = Some w.
Proof.
  unfold rooms_get. destruct (room_lookup rs k); [congruence |].
  destruct (inherited_key k); discriminate.
Qed.

Lemma rooms_get_undefined (rs : Rooms) (k : string) :
  rooms_get rs k = RUndefined -> room_lookup rs k = None.
Proof. unfold rooms_get. destruct (room_lookup rs k); [discriminate | auto]. Qed.

Lemma room_lookup_app_new (rs : Rooms) (k : string) (w : WorldState) :
  room_lookup rs k = None -> room_lookup (rs ++ [(k, w)]) k = Some w.
Proof.
  induction rs as [| [k' v] rs IH]; simpl; [now rewrite String.eqb_refl |].
  destruct (String.eqb k k'); [discriminate | exact IH].
Qed.

Lemma room_update_same (rs : Rooms) (k : string) (w : WorldState) :
  room_lookup rs k = Some w -> room_update rs k w = rs.
Proof.
  induction rs as [| [k' v] rs IH]; simpl; [discriminate |].
  destruct (String.eqb k k'); [congruence | intros H; now rewrite IH].
Qed.

Lemma room_update_twice (rs : Rooms) (k : string) (w1 w2 : WorldState) :
  room_update (room_update rs k w1) k w2 = room_update rs k w2.
Proof.
  induction rs as [| [k' v] rs IH]; simpl; [reflexivity |].
  destruct (String.eqb k k') eqn:E; simpl; rewrite E; [reflexivity | now rewrite IH].
Qed.

Lemma find_by_name_app_absent (n : string) (es : list Actor) (a : Actor) :
  find_by_name n es = None -> name a = n -> find_by_name n (es ++ [a]) = Some a.
Proof.
  induction es as [| e es IH]; simpl; intros H Hn.
  - rewrite Hn, String.eqb_refl. reflexivity.
  - destruct (String.eqb (name e) n); [discriminate | now apply IH].
Qed.

Lemma find_by_name_update (n : string) (f : Actor -> Actor) (es : list Actor) (a : Actor) :
  (forall x, name (f x) = name x) ->
  find_by_name n es = Some a -> find_by_name n (update_by_name n f es) = Some (f a).
Proof.
  intros Hf. induction es as [| e es IH]; simpl; [discriminate |].
  destruct (String.eqb (name e) n) eqn:E; simpl.
  - intros H. injection H as <-. now rewrite Hf, E.
  - rewrite E. exact IH.
Qed.

Lemma update_by_name_compose (n : string) (f g : Actor -> Actor) (es : list Actor) :
  (forall x, name (f x) = name x) ->
  update_by_name n g (update_by_name n f es) = update_by_name n (fun x => g (f x)) es.
Proof.
  intros Hf. induction es as [| e es IH]; simpl; [reflexivity |].
  destruct (String.eqb (name e) n) eqn:E; simpl.
  - now rewrite Hf, E.
  - rewrite E. now rewrite IH.
Qed.

Lemma update_by_name_fixed (n : string) (f : Actor -> Actor) (es : list Actor) (a : Actor) :
  find_by_name n es = Some a -> f a = a -> update_by_name n f es = es.
Proof.
  induction es as [| e es IH]; simpl; [discriminate |].
  destruct (String.eqb (name e) n).
  - intros H Ha. injection H as <-. now rewrite Ha.
  - intros H Ha. now rewrite (IH H Ha).
Qed.

Lemma update_by_name_Forall (P : Actor -> Prop) (n : string) (f : Actor -> Actor)
    (es : list Actor) :
  (forall e, In e es -> P e) -> (forall e, P e -> P (f e)) ->
  forall e, In e (update_by_name n f es) -> P e.
Proof.
  intros Hes Hf. induction es as [| x es IH]; simpl; [tauto |].
  destruct (String.eqb (name x) n); simpl; intros e [<- | Hin].
  - apply Hf, Hes. now left.
  - apply Hes. now right.
  - apply Hes. now left.
  - apply IH; [intros y Hy; apply Hes; now right | exact Hin].
Qed.

Lemma handle_message_name (a : Actor) (m : Msg) : name (handle_message a m) = name a.
Proof.
  unfold handle_message.
  destruct (String.eqb (msg_type m) "keypress"); [destruct (negb _); reflexivity |].
  destruct (String.eqb (msg_type m) "keyrelease"); [destruct (includes _ _) |]; reflexivity.
Qed.

Lemma remove_first_app_absent {A : Type} (f : A -> bool) (l : list A) (x : A) :
  existsb f l = false -> f x = true -> remove_first f (l ++ [x]) = l.
Proof.
  induction l as [| y l IH]; simpl; intros H Hx.
  - now rewrite Hx.
  - destruct (f y); [discriminate |]. now rewrite IH.
Qed.

Lemma In_remove_first {A : Type} (f : A -> bool) (l : list A) (y : A) :
  In y (remove_first f l) -> In y l.
Proof.
  induction l as [| x l IH]; simpl; [tauto |].
  destruct (f x); simpl; [tauto |]. intros [-> | H]; [now left | right; now apply IH].
Qed.

Lemma NoDup_remove_first {A : Type} (f : A -> bool) (l : list A) :
  NoDup l -> NoDup (remove_first f l).
Proof.
  induction l as [| x l IH]; simpl; intros H; [constructor |].
  inversion H as [| ? ? Hx Hl]; subst.
  destruct (f x); [exact Hl |].
  constructor; [intros Hin; apply Hx; now apply In_remove_first with f | now apply IH].
Qed.

Lemma NoDup_snoc {A : Type} (l : list A) (x : A) :
  NoDup l -> ~ In x l -> NoDup (l ++ [x]).
Proof.
  induction l as [| y l IH]; simpl; intros H Hx.
  - repeat constructor. tauto.
  - inversion H as [| ? ? Hy Hl]; subst. constructor.
    + rewrite in_app_iff. simpl. intros [Hin | [-> | []]]; [tauto | tauto].
    + apply IH; tauto.
Qed.

Lemma includes_false_not_In (d : string) (ds : list string) :
  includes d ds = false -> ~ In d ds.
Proof.
  unfold includes. intros H Hin.
  assert (existsb (String.eqb d) ds = true)
    by (apply existsb_exists; exists d; split; [exact Hin | apply String.eqb_refl]).
  congruence.
Qed.

Lemma handle_message_nodup (a : Actor) (m : Msg) :
  NoDup (directions a) -> NoDup (directions (handle_message a m)).
Proof.
  intros H. unfold handle_message.
  destruct (String.eqb (msg_type m) "keypress").
  - destruct (includes (msg_direction m) (directions a)) eqn:I; simpl; [exact H |].
    apply NoDup_snoc; [exact H | now apply includes_false_not_In].
  - destruct (String.eqb (msg_type m) "keyrelease"); [| exact H].
    destruct (includes (msg_direction m) (directions a)) eqn:I; [| exact H]. simpl.
    rewrite splice1_findIndex_present by exact I. now apply NoDup_remove_first.
Qed.

(** X3.  [subscribeUser] is idempotent: once a user has joined a room (an
    existing one or one it created), joining again with the same id changes
    nothing, whatever ids and positions would be drawn. *)
Theorem subscribeUser_idempotent (rs rs1 : Rooms) (roomId userId : string)
    (n1 n2 n3 me m1 m2 m3 me' : Spawn) :
  subscribeUser rs roomId userId n1 n2 n3 me = Some rs1 ->
  subscribeUser rs1 roomId userId m1 m2 m3 me' = Some rs1.
Proof.
  unfold subscribeUser at 1. destruct (rooms_get rs roomId) as [w | |] eqn:G.
  - pose proof (rooms_get_world _ _ _ G) as L.
    destruct (existsb _ (players w)) eqn:E; intros H; injection H as <-.
    + unfold subscribeUser. now rewrite G, E.
    + unfold subscribeUser.
      erewrite rooms_get_lookup by (apply room_lookup_update with (w := w); exact L).
      simpl. rewrite existsb_app. simpl. now rewrite String.eqb_refl, orb_true_r.
  - discriminate.
  - intros H. injection H as <-. unfold subscribeUser.
    erewrite rooms_get_lookup by (apply room_lookup_app_new, rooms_get_undefined, G).
    simpl. now rewrite String.eqb_refl, !orb_true_r.
Qed.

(** X4.  A user joining an existing room and then leaving it gives the room
    its players list back; the actor created for the user stays among the
    entities and is the one that gets killed. *)
Theorem subscribe_then_unsubscribe (rs rs1 : Rooms) (roomId userId : string)
    (w : WorldState) (n1 n2 n3 me : Spawn) :
  room_lookup rs roomId = Some w ->
  existsb (fun p => String.eqb (networkId p) userId) (players w) = false ->
  find_by_name userId (entities w) = None ->
  subscribeUser rs roomId userId n1 n2 n3 me = Some rs1 ->
  exists w', room_lookup (unsubscribeUser rs1 roomId userId) roomId = Some w' /\
    players w' = players w /\
    entities w' = entities w ++ [spawn_client userId me] /\
    killed w' = uuid (spawn_client userId me) :: killed w.
Proof.
  intros L E F. unfold subscribeUser. rewrite (rooms_get_lookup _ _ _ L), E.
  intros H. injection H as <-.
  unfold unsubscribeUser. erewrite (room_lookup_update _ _ _ _ L).
  eexists. split; [eapply room_lookup_update, room_lookup_update, L |].
  unfold unsubscribe_room. simpl.
  assert (Hn : name (spawn_client userId me) = userId) by (destruct me as [[id x] y]; reflexivity).
  rewrite (find_by_name_app_absent _ _ _ F Hn).
  split; [| split; reflexivity].
  rewrite splice1_findIndex_present
    by (rewrite existsb_app; simpl; now rewrite String.eqb_refl, orb_true_r).
  apply remove_first_app_absent; [exact E | apply String.eqb_refl].
Qed.

(** X5.  [onMessage] keeps every entity's [directions] free of duplicates:
    a "keypress" only appends a direction that is not held, a "keyrelease"
    removes one occurrence; the room's players are untouched. *)
Theorem onMessage_directions_nodup (rs rs1 : Rooms) (roomId userId : string) (m : Msg)
    (w : WorldState) :
  room_lookup rs roomId = Some w ->
  (forall e, In e (entities w) -> NoDup (directions e)) ->
  onMessage rs roomId userId m = Some rs1 ->
  exists w', room_lookup rs1 roomId = Some w' /\ players w' = players w /\
    (forall e, In e (entities w') -> NoDup (directions e)).
Proof.
  intros L N. unfold onMessage. rewrite (rooms_get_lookup _ _ _ L).
  destruct (find_by_name userId (entities w)); intros H; injection H as <-.
  - eexists. split; [apply room_lookup_update with (w := w); exact L |].
    split; [reflexivity |]. simpl.
    apply update_by_name_Forall; [exact N | intros e; apply handle_message_nodup].
  - exists w. auto.
Qed.

(** X6.  Pressing a direction the user's actor does not hold and releasing
    it again gives back exactly the rooms the server had before. *)
Theorem keypress_keyrelease_restores (rs rs1 : Rooms) (roomId userId d : string)
    (w : WorldState) (a : Actor) :
  room_lookup rs roomId = Some w ->
  find_by_name userId (entities w) = Some a ->
  includes d (directions a) = false ->
  onMessage rs roomId userId (mkMsg "keypress" d) = Some rs1 ->
  onMessage rs1 roomId userId (mkMsg "keyrelease" d) = Some rs.
Proof.
  intros L F I. unfold onMessage at 1. rewrite (rooms_get_lookup _ _ _ L), F.
  intros H. injection H as <-.
  set (h1 := fun x => handle_message x (mkMsg "keypress" d)).
  set (h2 := fun x => handle_message x (mkMsg "keyrelease" d)).
  assert (Hn1 : forall x, name (h1 x) = name x) by (intros; apply handle_message_name).
  assert (Ha : h2 (h1 a) = a).
  { subst h1 h2. unfold handle_message. simpl. rewrite I. simpl.
    assert (I2 : includes d (directions a ++ [d]) = true)
      by (unfold includes; rewrite existsb_app; simpl; now rewrite String.eqb_refl, orb_true_r).
    rewrite I2. rewrite splice1_findIndex_present by exact I2.
    rewrite remove_first_app_absent by (exact I || apply String.eqb_refl).
    destruct a; reflexivity. }
  unfold onMessage. erewrite rooms_get_lookup by (apply room_lookup_update with (w := w); exact L).
  simpl. rewrite (find_by_name_update _ _ _ _ Hn1 F).
  f_equal. rewrite room_update_twice. fold h2.
  rewrite (update_by_name_compose _ _ _ _ Hn1).
  rewrite (update_by_name_fixed _ (fun x => h2 (h1 x)) _ _ F Ha).
  apply room_update_same. rewrite L. destruct w; reflexivity.
Qed.
End ServerMore.

(** ** Witnesses of the further properties *)

Lemma updateEntities_free_movement_witness :
  updateEntities Fixtures.walkRoom =
    Some (mkWorldState (players Fixtures.walkRoom)
            (map (fun e => if existsb (String.eqb (uuid e)) (map ste_id (players Fixtures.walkRoom))
                           then free_move e else e) (entities Fixtures.walkRoom))
            (killed Fixtures.walkRoom)).
Proof.
  apply updateEntities_free_movement.
  - intros e H. simpl in H. destruct H as [<- | [<- | []]]; reflexivity.
  - repeat constructor; simpl; intuition discriminate.
  - repeat constructor; simpl; intuition discriminate.
  - intros p H. simpl in H. destruct H as [<- | [<- | []]]; simpl; tauto.
Defined.

Lemma updateEntities_writes_only_position_witness :
  exists w', updateEntities Fixtures.walkRoom = Some w' /\
    map without_position (entities w') = map without_position (entities Fixtures.walkRoom).
Proof.
  destruct (updateEntities Fixtures.walkRoom) as [w' |] eqn:E; [| vm_compute in E; discriminate].
  exists w'. split; [reflexivity |].
  exact (proj2 (proj2 (updateEntities_writes_only_position _ _ E))).
Defined.

Lemma subscribeUser_idempotent_witness :
  exists rs1,
    subscribeUser [] "r" "u" ("t1"%string, 10, 10) ("t2"%string, 20, 20) ("t3"%string, 30, 30) ("m"%string, 40, 40)
      = Some rs1 /\
    subscribeUser rs1 "r" "u" ("t4"%string, 1, 1) ("t5"%string, 2, 2) ("t6"%string, 3, 3) ("m2"%string, 4, 4) = Some rs1.
Proof.
  destruct (subscribeUser [] "r" "u" ("t1"%string, 10, 10) ("t2"%string, 20, 20) ("t3"%string, 30, 30) ("m"%string, 40, 40))
    as [rs1 |] eqn:E; [| vm_compute in E; discriminate].
  exists rs1. split; [reflexivity |].
  exact (subscribeUser_idempotent _ _ _ _ _ _ _ _ _ _ _ _ E).
Defined.

Lemma subscribe_then_unsubscribe_witness :
  exists rs1 w',
    subscribeUser [("r"%string, Fixtures.walkRoom)] "r" "bob"
      ("t1"%string, 10, 10) ("t2"%string, 20, 20) ("t3"%string, 30, 30) ("b"%string, 40, 40) = Some rs1 /\
    room_lookup (unsubscribeUser rs1 "r" "bob") "r" = Some w' /\
    players w' = players Fixtures.walkRoom.
Proof.
  destruct (subscribeUser [("r"%string, Fixtures.walkRoom)] "r" "bob"
              ("t1"%string, 10, 10) ("t2"%string, 20, 20) ("t3"%string, 30, 30) ("b"%string, 40, 40))
    as [rs1 |] eqn:E; [| vm_compute in E; discriminate].
  destruct (subscribe_then_unsubscribe [("r"%string, Fixtures.walkRoom)] rs1 "r" "bob"
              Fixtures.walkRoom _ _ _ _ eq_refl eq_refl eq_refl E) as (w' & H1 & H2 & _).
  exists rs1, w'. auto.
Defined.

Lemma onMessage_directions_nodup_witness :
  exists rs1 w',
    onMessage [("r"%string, Fixtures.walkRoom)] "r" "alice" (mkMsg "keypress" "up") = Some rs1 /\
    room_lookup rs1 "r" = Some w' /\
    (forall e, In e (entities w') -> NoDup (directions e)).
Proof.
  destruct (onMessage [("r"%string, Fixtures.walkRoom)] "r" "alice" (mkMsg "keypress" "up"))
    as [rs1 |] eqn:E; [| vm_compute in E; discriminate].
  destruct (onMessage_directions_nodup [("r"%string, Fixtures.walkRoom)] rs1 "r" "alice"
              (mkMsg "keypress" "up") Fixtures.walkRoom eq_refl
              ltac:(intros e H; simpl in H; destruct H as [<- | [<- | []]];
                    repeat constructor; simpl; tauto) E) as (w' & H1 & _ & H3).
  exists rs1, w'. auto.
Defined.

Lemma keypress_keyrelease_restores_witness :
  exists rs1,
    onMessage [("r"%string, Fixtures.walkRoom)] "r" "alice" (mkMsg "keypress" "up") = Some rs1 /\
    onMessage rs1 "r" "alice" (mkMsg "keyrelease" "up") = Some [("r"%string, Fixtures.walkRoom)].
Proof.
  destruct (onMessage [("r"%string, Fixtures.walkRoom)] "r" "alice" (mkMsg "keypress" "up"))
    as [rs1 |] eqn:E; [| vm_compute in E; discriminate].
  exists rs1. split; [reflexivity |].
  exact (keypress_keyrelease_restores [("r"%string, Fixtures.walkRoom)] rs1 "r" "alice" "up"
           Fixtures.walkRoom Fixtures.walker
           eq_refl eq_refl eq_refl E).
Defined.

Lemma onCollisionStart_places_flush_witness :
  pos (onCollisionStart Fixtures.walker Fixtures.wallNPC Side.Bottom) = (100, 100) /\
  pos (onCollisionStart Fixtures.walker Fixtures.wallNPC Side.Bottom) =
    position (onCollisionStart Fixtures.walker Fixtures.wallNPC Side.Bottom).
Proof.
  destruct (onCollisionStart_places_flush Fixtures.walker Fixtures.wallNPC Side.Bottom eq_refl)
    as (_ & H2 & H3).
  split; [rewrite H3; reflexivity | exact H2].
Defined.

Lemma removeTimer_addTimer_witness :
  removeTimer (mkTimer 2 0) (addTimer [mkTimer 1 0] (mkTimer 2 0)) = [mkTimer 1 0].
Proof.
  apply (proj1 (removeTimer_addTimer [mkTimer 1 0] (mkTimer 2 0)
                  ltac:(simpl; intuition discriminate))).
Defined.

Lemma cancelTimer_removed_by_update_witness :
  exists st',
    scene_update (fun _ t => t) (fun _ es => es)
      (cancelTimer (mkSceneState true Fixtures.walkRoom [mkTimer 1 0; mkTimer 2 0] [] [])
                   (mkTimer 1 0)) 16 = Some st' /\
    ~ In 1%nat (map timer_id (sc_timers st')) /\ sc_cancelQueue st' = [].
Proof.
  destruct (scene_update (fun _ t => t) (fun _ es => es)
              (cancelTimer (mkSceneState true Fixtures.walkRoom [mkTimer 1 0; mkTimer 2 0] [] [])
                           (mkTimer 1 0)) 16) as [st' |] eqn:E;
    [| vm_compute in E; discriminate].
  destruct (cancelTimer_removed_by_update (fun _ t => t) (fun _ es => es)
              (mkSceneState true Fixtures.walkRoom [mkTimer 1 0; mkTimer 2 0] [] [])
              st' (mkTimer 1 0) 16 (fun _ _ => eq_refl) eq_refl
              ltac:(repeat constructor; simpl; intuition discriminate) E)
    as (_ & H2 & H3).
  exists st'. auto.
Defined.

Lemma scene_initialize_throw_retries_witness :
  exists st1,
    scene_initialize unit (fun _ => None) (fun u => Some u) 1 freshSceneInit = Throw st1 /\
    si_onInitializeCalls unit st1 = 1%nat /\
    match scene_initialize unit (fun _ => None) (fun u => Some u) 2 st1 with
    | Ok st2 | Throw st2 => si_onInitializeCalls unit st2 = 2%nat
    end.
Proof.
  destruct (scene_initialize unit (fun _ => None) (fun u => Some u) 1 freshSceneInit)
    as [st1 | st1] eqn:E; [vm_compute in E; discriminate |].
  destruct (scene_initialize_throw_retries unit (fun _ => None) (fun u => Some u) 1 2
              freshSceneInit st1 E) as (_ & H2 & _ & H4).
  exists st1. split; [reflexivity |]. split; [exact H2 |]. rewrite H2 in H4. exact H4.
Defined.

Lemma add_registers_witness :
  Director.logs (Director.add DirectorFixtures.atRoot "toString" (Director.Plain (Director.SInst 3)))
    = ["Scene already exists overwriting"%string] /\
  Director.getSceneDefinition
    (Director.scenes (Director.add DirectorFixtures.atRoot "toString" (Director.Plain (Director.SInst 3))))
    "toString" = Some (Director.DScene 3).
Proof.
  destruct (add_registers DirectorFixtures.atRoot "toString" (Director.Plain (Director.SInst 3))
              ltac:(discriminate)) as (H1 & _ & H3).
  split; [rewrite H3; reflexivity | exact H1].
Defined.

Lemma add_keeps_cached_instance_witness :
  Director.getSceneInstance
    (Director.add DirectorFixtures.atRoot "root" (Director.Plain (Director.SInst 5))) "root"
  = (Director.add DirectorFixtures.atRoot "root" (Director.Plain (Director.SInst 5)),
     Some (Director.IScene 0)).
Proof.
  exact (add_keeps_cached_instance DirectorFixtures.atRoot DirectorFixtures.atRoot "root"
           (Director.IScene 0) (Director.Plain (Director.SInst 5)) eq_refl).
Defined.

Lemma getSceneInstance_idempotent_witness :
  exists d1, Director.getSceneInstance DirectorFixtures.atRoot "main" = (d1, Some (Director.IScene 1)) /\
    Director.getSceneInstance d1 "main" = (d1, Some (Director.IScene 1)).
Proof.
  destruct (Director.getSceneInstance DirectorFixtures.atRoot "main"%string) as [d1 o] eqn:G.
  assert (Ho : o = Some (Director.IScene 1)) by (vm_compute in G; injection G as _ <-; reflexivity).
  subst o. exists d1. split; [reflexivity |].
  exact (proj1 (getSceneInstance_idempotent _ _ _ _ G)).
Defined.

Lemma remove_after_add_restores_witness :
  exists d', Director.remove
               (Director.add DirectorFixtures.atRoot "level2" (Director.Plain (Director.SCtor 9)))
               (Director.RName "level2") = Ok d' /\
    Director.scenes d' = Director.scenes DirectorFixtures.atRoot.
Proof.
  destruct (remove_after_add_restores DirectorFixtures.atRoot "level2"
              (Director.Plain (Director.SCtor 9)) eq_refl ltac:(discriminate))
    as (d' & H1 & H2 & _).
  exists d'. auto.
Defined.

Lemma goToScene_before_initialize_witness :
  exists d', Director.goToScene DirectorFixtures.beforeInit "main" None = Ok d' /\
    Director.deferredGoto d' = Some "main"%string /\
    Director.currentScene d' = Director.IScene 0.
Proof.
  destruct (goToScene_before_initialize DirectorFixtures.beforeInit "main" None
              (Director.DCtor 7) eq_refl eq_refl) as (d' & H1 & H2 & _ & H4 & _).
  exists d'. auto.
Defined.

Lemma configureStart_before_initialize_witness :
  Director.currentSceneName (snd (Director.configureStart DirectorFixtures.beforeInit "main"))
    = "main"%string /\
  Director.currentScene (snd (Director.configureStart DirectorFixtures.beforeInit "main"))
    = Director.IScene 0.
Proof.
  destruct (configureStart_before_initialize DirectorFixtures.beforeInit "main" eq_refl
              ltac:(discriminate)) as (_ & H2 & H3 & _).
  auto.
Defined.


Lemma swapScene_to_current_witness :
  exists d', Director.swapScene DirectorFixtures.atMain "main" (Some 2%nat) = Ok d' /\
    Director.currentScene d' = Director.IScene 1.
Proof.
  destruct (Director.swapScene DirectorFixtures.atMain "main"%string (Some 2%nat)) as [d' | d'] eqn:S;
    [| vm_compute in S; discriminate].
  exists d'. split; [reflexivity |].
  exact (proj1 (swapScene_to_current DirectorFixtures.atMain DirectorFixtures.atMain d' "main"
                  (Some 2%nat) eq_refl eq_refl eq_refl S)).
Defined.

Lemma nan_timescale_stops_updates_witness :
  exists e', Clock.drive 1 (Clock.fresh Clock.serverTimestep)
               [Clock.SetTimescale PrimFloat.nan; Clock.Tick Clock.serverTimestep;
                Clock.SetTimescale (PrimFloat.of_uint63 (Uint63.of_Z 1));
                Clock.Tick (PrimFloat.mul (PrimFloat.of_uint63 (Uint63.of_Z 4)) Clock.serverTimestep)]
             = Some e' /\ Clock.updates e' = [].
Proof.
  exact (nan_timescale_stops_updates 0 (Clock.fresh Clock.serverTimestep) PrimFloat.nan
           Clock.serverTimestep _ eq_refl eq_refl).
Defined.
